(** * Marlowe: live-call transcript pipeline

    A shallow embedding of the telephony webhook pipeline of the Marlowe
    repository:

    - the transcript merge engine ([lib/transcript-merge.ts] and its
      revision with substring containment and restart detection),
    - the Twilio webhook authenticator and event normaliser
      ([lib/twilio-webhook.ts]),
    - the per-call advice scheduler and the webhook [POST] handler
      ([app/api/twilio/webhook/route.ts]).

    JavaScript strings are sequences of UTF-16 code units.  The embedding
    covers the code units 0..255 (Latin-1): one [ascii] per code unit.  Text
    handled by the merge engine is a [list ascii]; keys and values of the
    webhook form body are [string]s, so that they can index a [gmap]. *)

From Stdlib Require Import Ascii String List ZArith QArith Qround Lia Bool DecimalString.
From stdpp Require Import gmap strings list sorting.

(** ** JavaScript string primitives used by the sources *)

Module Js.

Abbreviation text := (list ascii).

Definition code (c : ascii) : N := N_of_ascii c.

Definition between (lo hi : N) (c : ascii) : bool :=
  ((lo <=? code c) && (code c <=? hi))%N.

(** [\s] of a regular expression and the characters removed by
    [String.prototype.trim]: TAB, LF, VT, FF, CR, SPACE and NBSP are the
    members below U+0100. *)
Definition isWhiteSpace (c : ascii) : bool :=
  between 9 13 c || (code c =? 32)%N || (code c =? 160)%N.

(** [toLowerCase] on one code unit: A-Z, and the Latin-1 capitals
    U+00C0..U+00DE without the multiplication sign U+00D7. *)
Definition lowerChar (c : ascii) : ascii :=
  if between 65 90 c || between 192 214 c || between 216 222 c
  then ascii_of_N (code c + 32)
  else c.

Definition toLowerCase (s : text) : text := map lowerChar s.

Fixpoint dropWhile (p : ascii -> bool) (s : text) : text :=
  match s with
  | [] => []
  | c :: r => if p c then dropWhile p r else s
  end.

Definition dropWhileEnd (p : ascii -> bool) (s : text) : text :=
  rev (dropWhile p (rev s)).

(** [value.trim()] *)
Definition trim (s : text) : text :=
  dropWhileEnd isWhiteSpace (dropWhile isWhiteSpace s).

(** [!value] for a string: the empty string is the only falsy one. *)
Definition isEmpty (s : text) : bool :=
  match s with [] => true | _ => false end.

Definition eqb (a b : text) : bool := bool_decide (a = b).

(** [s.startsWith(p)] *)
Fixpoint startsWith (s p : text) {struct p} : bool :=
  match p, s with
  | [], _ => true
  | _ :: _, [] => false
  | x :: p', y :: s' => bool_decide (x = y) && startsWith s' p'
  end.

(** [s.includes(p)] *)
Fixpoint includes (s p : text) : bool :=
  startsWith s p ||
  match s with
  | [] => false
  | _ :: s' => includes s' p
  end.

(** [s.split(sep)] for a one-character separator: never an empty array. *)
Fixpoint split (sep : ascii) (s : text) : list text :=
  match s with
  | [] => [[]]
  | c :: r =>
      if bool_decide (c = sep) then [] :: split sep r
      else match split sep r with
           | w :: ws => (c :: w) :: ws
           | [] => [[c]]
           end
  end.

(** [words.join(sep)] *)
Fixpoint join (sep : ascii) (ws : list text) : text :=
  match ws with
  | [] => []
  | [w] => w
  | w :: ws' => w ++ sep :: join sep ws'
  end.

(** String literals of the sources, as lists of code units. *)
Definition lit (s : string) : text := list_ascii_of_string s.

End Js.

(** ** Transcript merge engine *)

Module Merge.
Import Js.

Definition FINAL_REPLACE_MIN_WORDS : nat := 5.

(** The character class [[a-z0-9']]. *)
Definition isTokenChar (c : ascii) : bool :=
  between 97 122 c || between 48 57 c || (code c =? 39)%N.

Definition notTokenChar (c : ascii) : bool := negb (isTokenChar c).

(** [lowered.replace(/^[^a-z0-9']+|[^a-z0-9']+$/g, '')]: the first
    alternative removes the maximal leading run of non-token characters, the
    second the maximal trailing run of what is left. *)
Definition stripPunctuation (lowered : text) : text :=
  dropWhileEnd notTokenChar (dropWhile notTokenChar lowered).

Definition normalizeToken (value : text) : text :=
  let lowered := toLowerCase value in
  let stripped := stripPunctuation lowered in
  if isEmpty stripped then lowered else stripped.

(** The inner loop of [findWordOverlap] for one candidate [overlap];
    [words[i] ?? ''] is [nth i words []]. *)
Definition overlapMatches (previousWords nextWords : list text) (overlap : nat) : bool :=
  forallb
    (fun index =>
       let previousToken :=
         normalizeToken (nth (length previousWords - overlap + index) previousWords []) in
       let nextToken := normalizeToken (nth index nextWords []) in
       negb (isEmpty previousToken || isEmpty nextToken || negb (eqb previousToken nextToken)))
    (seq 0 overlap).

(** The outer loop, counting [overlap] down to 1. *)
Fixpoint findWordOverlapFrom (previousWords nextWords : list text) (overlap : nat) : nat :=
  match overlap with
  | 0 => 0
  | S smaller =>
      if overlapMatches previousWords nextWords overlap then overlap
      else findWordOverlapFrom previousWords nextWords smaller
  end.

Definition findWordOverlap (previousWords nextWords : list text) : nat :=
  findWordOverlapFrom previousWords nextWords
    (Nat.min (length previousWords) (length nextWords)).

(** The loop of [collapseDuplicateWords], with [previousToken] as its state. *)
Fixpoint collapseFrom (previousToken : text) (words : list text) : list text :=
  match words with
  | [] => []
  | word :: rest =>
      let token := normalizeToken word in
      if negb (isEmpty token) && eqb token previousToken
      then collapseFrom previousToken rest
      else word :: collapseFrom token rest
  end.

Definition collapseDuplicateWords (words : list text) : list text :=
  collapseFrom [] words.

Definition shouldReplaceWithFinal (previousWords nextWords : list text) : bool :=
  if length nextWords <? FINAL_REPLACE_MIN_WORDS then false
  else length previousWords <=? length nextWords.

(** [value.replace(/\s+/g, ' ')]: [inRun] tells that the previous character
    belonged to the whitespace run being replaced. *)
Fixpoint replaceWhiteSpaceRuns (inRun : bool) (value : text) : text :=
  match value with
  | [] => []
  | c :: r =>
      if isWhiteSpace c
      then if inRun then replaceWhiteSpaceRuns true r
           else " "%char :: replaceWhiteSpaceRuns true r
      else c :: replaceWhiteSpaceRuns false r
  end.

Definition normalizeTranscriptText (value : text) : text :=
  trim (replaceWhiteSpaceRuns false value).

(** *** [lib/transcript-merge.ts] *)

Module Lib.

Definition mergeIncrementalTranscriptText
    (previousText nextText : text) (isFinal : bool) : text :=
  let previous := normalizeTranscriptText previousText in
  let next := normalizeTranscriptText nextText in
  if isEmpty previous then next
  else if isEmpty next then previous
  else
    let previousLower := toLowerCase previous in
    let nextLower := toLowerCase next in
    if eqb previousLower nextLower then previous
    else if startsWith nextLower previousLower then next
    else if startsWith previousLower nextLower then previous
    else
      let previousWords := split " " previous in
      let nextWords := split " " next in
      let overlap := findWordOverlap previousWords nextWords in
      if 0 <? overlap
      then join " " (collapseDuplicateWords (previousWords ++ skipn overlap nextWords))
      else if isFinal && shouldReplaceWithFinal previousWords nextWords then next
      else join " " (collapseDuplicateWords (previousWords ++ nextWords)).

End Lib.

(** *** The revision with substring containment and restart detection *)

Module Restart.

Definition tokenize (value : text) : list text :=
  List.filter (fun token => negb (isEmpty token))
    (map normalizeToken (split " " value)).

(** The loop of [countPrefixTokenMatches]; both lists are cut at the shorter
    length by the recursion itself. *)
Fixpoint countPrefixTokenMatches (previousTokens nextTokens : list text) : nat :=
  match previousTokens, nextTokens with
  | p :: ps, n :: ns =>
      if eqb p n then S (countPrefixTokenMatches ps ns) else 0
  | _, _ => 0
  end.

(** [Math.floor(length * 0.7)], in exact arithmetic; the product of doubles
    can be one less where [7 * length] is a multiple of 10 (62 for 90).  The
    value never decides the restart test: whenever the third test is reached
    with a matching first token, the second test has already failed on
    [nextTokens.length >= 4]. *)
Definition floorSeventyPercent (len : nat) : nat := (7 * len) / 10.

Definition looksLikeRestart (previousText nextText : text) : bool :=
  let previousTokens := tokenize previousText in
  let nextTokens := tokenize nextText in
  if (length previousTokens =? 0) || (length nextTokens =? 0) then false
  else
    let prefixMatches := countPrefixTokenMatches previousTokens nextTokens in
    if 2 <=? prefixMatches then true
    else if (1 <=? prefixMatches) && (4 <=? length nextTokens) then true
    else if bool_decide (head previousTokens = head nextTokens) &&
            (Nat.max 4 (floorSeventyPercent (length previousTokens)) <=? length nextTokens)
         then true
         else false.

Definition mergeIncrementalTranscriptText
    (previousText nextText : text) (isFinal : bool) : text :=
  let previous := normalizeTranscriptText previousText in
  let next := normalizeTranscriptText nextText in
  if isEmpty previous then next
  else if isEmpty next then previous
  else
    let previousLower := toLowerCase previous in
    let nextLower := toLowerCase next in
    if eqb previousLower nextLower then previous
    else if startsWith nextLower previousLower then next
    else if includes nextLower previousLower then next
    else if startsWith previousLower nextLower then previous
    else if includes previousLower nextLower then previous
    else
      let previousWords := split " " previous in
      let nextWords := split " " next in
      let overlap := findWordOverlap previousWords nextWords in
      if 0 <? overlap
      then join " " (collapseDuplicateWords (previousWords ++ skipn overlap nextWords))
      else if looksLikeRestart previous next then next
      else if isFinal && shouldReplaceWithFinal previousWords nextWords then next
      else join " " (collapseDuplicateWords (previousWords ++ nextWords)).

End Restart.

End Merge.


(** ** Webhook authenticator and event normaliser ([lib/twilio-webhook.ts]) *)

Module Webhook.

(** The string methods above, on [string]s. *)
Definition onString (f : Js.text -> Js.text) (s : string) : string :=
  string_of_list_ascii (f (list_ascii_of_string s)).

Definition trim : string -> string := onString Js.trim.
Definition toLowerCase : string -> string := onString Js.toLowerCase.
Definition includes (s p : string) : bool :=
  Js.includes (list_ascii_of_string s) (list_ascii_of_string p).

(** Truthiness of a [string | null] value. *)
Definition truthy (value : option string) : bool :=
  match value with
  | Some s => negb (bool_decide (s = ""))
  | None => false
  end.

(** [a || b] on [string | null] values. *)
Definition orElse (a b : option string) : option string :=
  if truthy a then a else b.

(** [`${n}`] for a safe integer (magnitude up to 2^53), which a double holds
    and prints digit by digit. *)
Definition numberToString (n : Z) : string :=
  NilEmpty.string_of_int (Z.to_int n).

(** [TwilioWebhookParams = Record<string, string>] *)
Abbreviation TwilioWebhookParams := (gmap string string).

Inductive TranscriptSpeaker := caller | other | unknown.

Definition speakerToString (speaker : TranscriptSpeaker) : string :=
  match speaker with
  | caller => "caller"
  | other => "other"
  | unknown => "unknown"
  end.

Record Transcript := {
  text : string;
  speaker : TranscriptSpeaker;
  isFinal : bool;
  timestamp : Z;
  sourceEventId : string
}.

Record ParsedTwilioWebhookEvent := {
  callSid : option string;
  accountSid : option string;
  slug : option string;
  status : option string;
  transcript : option Transcript
}.

(** Values produced by [JSON.parse]; an object holds one entry per key. *)
#[local] Unset Elimination Schemes.
Inductive Json :=
| JNull
| JBool (b : bool)
| JNumber (n : Q)
| JString (s : string)
| JArray (items : list Json)
| JObject (fields : list (string * Json)).
#[local] Set Elimination Schemes.

Abbreviation JsonRecord := (list (string * Json)).

Fixpoint field (key : string) (record : JsonRecord) : option Json :=
  match record with
  | [] => None
  | (k, v) :: rest => if bool_decide (k = key) then Some v else field key rest
  end.

Fixpoint readString (params : TwilioWebhookParams) (keys : list string) : option string :=
  match keys with
  | [] => None
  | key :: rest =>
      match params !! key with
      | Some value =>
          let trimmed := trim value in
          if bool_decide (trimmed = "") then readString params rest else Some trimmed
      | None => readString params rest
      end
  end.

Definition asRecord (value : option Json) : option JsonRecord :=
  match value with
  | Some (JObject fields) => Some fields
  | _ => None
  end.

Fixpoint readStringFromFields (fields : JsonRecord) (keys : list string) : option string :=
  match keys with
  | [] => None
  | key :: rest =>
      match field key fields with
      | Some (JString value) =>
          let trimmed := trim value in
          if bool_decide (trimmed = "") then readStringFromFields fields rest
          else Some trimmed
      | _ => readStringFromFields fields rest
      end
  end.

Definition readStringFromRecord (record : option JsonRecord) (keys : list string)
  : option string :=
  match record with
  | None => None
  | Some fields => readStringFromFields fields keys
  end.

Definition readBoolean (value : option string) : option bool :=
  if truthy value then
    let normalized := toLowerCase (default "" value) in
    if bool_decide (normalized ∈ ["1"; "true"; "yes"; "y"]) then Some true
    else if bool_decide (normalized ∈ ["0"; "false"; "no"; "n"]) then Some false
    else None
  else None.

Definition parseSpeaker (track : option string) : TranscriptSpeaker :=
  if truthy track then
    let normalized := toLowerCase (default "" track) in
    if includes normalized "caller" || includes normalized "customer" ||
       includes normalized "inbound"
    then caller
    else if includes normalized "outbound" || includes normalized "callee" ||
            includes normalized "agent" || includes normalized "recipient" ||
            includes normalized "other"
    then other
    else unknown
  else unknown.

Record TranscriptionData := {
  dataText : option string;
  dataIsFinal : option bool;
  speakerHint : option string;
  timestampHint : option string;
  sourceHint : option string
}.

Definition noTranscriptionData : TranscriptionData :=
  {| dataText := None; dataIsFinal := None; speakerHint := None;
     timestampHint := None; sourceHint := None |}.

(** [Math.round] *)
Definition round (x : Q) : Z := Qfloor (x + (1 # 2)).

Section Platform.

(** Built-ins of the JavaScript platform and of [node:crypto].
    [Number_] gives the value of [Number(value)] when it is finite,
    [Date_parse] the value of [Date.parse(value)] when it is finite,
    [JSON_parse] the parsed value unless [JSON.parse] throws. *)
Variable Number_ : string -> option Q.
Variable Date_parse : string -> option Z.
Variable JSON_parse : string -> option Json.
Variable sha1_hex : string -> string.
Variable hmac_sha1_base64 : string -> string -> string.

(** [now] is the reading of [Date.now()].  [asNumber * 1000] is the exact
    product; the product of doubles is the same for integral seconds and can
    round differently for a fractional value. *)
Definition parseTimestamp (value : option string) (now : Z) : Z :=
  if truthy value then
    let value := default "" value in
    let viaDate :=
      match Date_parse value with
      | Some asDate => asDate
      | None => now
      end in
    match Number_ value with
    | Some asNumber =>
        if Qlt_le_dec 1000000000000 asNumber then round asNumber
        else if Qlt_le_dec 1000000000 asNumber then round (asNumber * 1000)
        else viaDate
    | None => viaDate
    end
  else now.

Definition parseTranscriptionData (rawData : option string) : TranscriptionData :=
  if truthy rawData then
    match JSON_parse (default "" rawData) with
    | None => noTranscriptionData
    | Some parsed =>
        let record := asRecord (Some parsed) in
        let segment :=
          match record ≫= field "segments" with
          | Some (JArray items) => asRecord (head items)
          | _ => None
          end in
        let read keys :=
          orElse (readStringFromRecord record keys) (readStringFromRecord segment keys) in
        {| dataText := read ["transcript"; "text"];
           dataIsFinal := readBoolean (read ["isFinal"; "final"]);
           speakerHint := read ["track"; "channel"; "speaker"; "role"];
           timestampHint := read ["timestamp"; "time"; "createdAt"];
           sourceHint := read ["id"; "segmentId"; "sequence"] |}
    end
  else noTranscriptionData.

(** [[transcriptionSid, sequenceId].filter(Boolean).join(':')] *)
Definition sessionSequence (transcriptionSid sequenceId : option string) : string :=
  match truthy transcriptionSid, truthy sequenceId with
  | true, true => default "" transcriptionSid +:+ ":" +:+ default "" sequenceId
  | true, false => default "" transcriptionSid
  | false, true => default "" sequenceId
  | false, false => ""
  end.

Definition primaryId
    (transcriptionSid sequenceId segmentSid sourceHint : option string)
    (timestamp : Z) (speaker : TranscriptSpeaker) : string :=
  default (numberToString timestamp +:+ ":" +:+ speakerToString speaker)
    (orElse segmentSid
       (orElse sourceHint
          (orElse (Some (sessionSequence transcriptionSid sequenceId)) None))).

(** The string that [buildSourceEventId] hashes. *)
Definition sourceEventKey
    (callSid : string) (transcriptionSid sequenceId segmentSid sourceHint : option string)
    (timestamp : Z) (speaker : TranscriptSpeaker) (text : string) : string :=
  callSid +:+ "|" +:+
  primaryId transcriptionSid sequenceId segmentSid sourceHint timestamp speaker +:+ "|" +:+
  toLowerCase (trim text).

Definition buildSourceEventId
    (callSid : string) (transcriptionSid sequenceId segmentSid sourceHint : option string)
    (timestamp : Z) (speaker : TranscriptSpeaker) (text : string) : string :=
  sha1_hex
    (sourceEventKey callSid transcriptionSid sequenceId segmentSid sourceHint
       timestamp speaker text).

(** [Object.keys(params).sort()]: the keys in code-unit order. *)
Definition sortedKeys (params : TwilioWebhookParams) : list string :=
  merge_sort String.le (map fst (map_to_list params)).

(** The string that [computeTwilioSignature] authenticates. *)
Definition signaturePayload (url : string) (params : TwilioWebhookParams) : string :=
  fold_left
    (fun acc key => acc +:+ key +:+ default "undefined" (params !! key))
    (sortedKeys params) url.

Definition computeTwilioSignature
    (authToken url : string) (params : TwilioWebhookParams) : string :=
  hmac_sha1_base64 authToken (signaturePayload url params).

(** UTF-8 encoding of one code unit below U+0100, the code units of the
    strings modelled here (no surrogates, which [Buffer.from] replaces by
    U+FFFD). *)
Definition utf8 (c : ascii) : list ascii :=
  match c with
  | Ascii _ _ _ _ _ _ _ false => [c]
  | Ascii b0 b1 b2 b3 b4 b5 b6 true =>
      [Ascii b6 true false false false false true true;
       Ascii b0 b1 b2 b3 b4 b5 false true]
  end.

(** [Buffer.from(s)] *)
Definition Buffer_from (s : string) : list ascii :=
  flat_map utf8 (list_ascii_of_string s).

(** [crypto.timingSafeEqual]: [None] is the [RangeError] thrown for buffers
    of different lengths. *)
Definition timingSafeEqual (a b : list ascii) : option bool :=
  if bool_decide (length a = length b) then Some (bool_decide (a = b)) else None.

Definition safeEqual (a b : string) : option bool :=
  let aBuf := Buffer_from a in
  let bBuf := Buffer_from b in
  if negb (bool_decide (length aBuf = length bBuf)) then Some false
  else timingSafeEqual aBuf bBuf.

(** [candidates.some(test)] for a test that may throw. *)
Fixpoint some {A} (test : A -> option bool) (candidates : list A) : option bool :=
  match candidates with
  | [] => Some false
  | candidate :: rest =>
      match test candidate with
      | None => None
      | Some true => Some true
      | Some false => some test rest
      end
  end.

Definition isValidTwilioSignature
    (authToken signature : string) (urlCandidates : list string)
    (bodyParams : TwilioWebhookParams) : option bool :=
  some
    (fun candidate =>
       safeEqual (computeTwilioSignature authToken candidate bodyParams) signature)
    urlCandidates.

(** [/(final|complete|stopped)/i.test(eventName)] *)
Definition namesFinalEvent (eventName : string) : bool :=
  let lowered := toLowerCase eventName in
  includes lowered "final" || includes lowered "complete" || includes lowered "stopped".

Definition parseTwilioWebhookEvent
    (bodyParams : TwilioWebhookParams) (slugFromQuery : option string) (now : Z)
  : ParsedTwilioWebhookEvent :=
  let callSid := readString bodyParams ["CallSid"] in
  let accountSid := readString bodyParams ["AccountSid"] in
  let status := readString bodyParams ["CallStatus"] in
  let slug :=
    match slugFromQuery with
    | Some s => Some s
    | None => readString bodyParams ["slug"; "Slug"]
    end in
  let transcriptionData :=
    parseTranscriptionData (readString bodyParams ["TranscriptionData"]) in
  let transcriptText :=
    orElse
      (readString bodyParams
         ["TranscriptionText"; "Transcript"; "SpeechResult"; "UnstableSpeechResult"])
      (dataText transcriptionData) in
  if negb (truthy callSid) || negb (truthy transcriptText) then
    {| callSid := callSid; accountSid := accountSid; slug := slug; status := status;
       transcript := None |}
  else
    let eventName :=
      readString bodyParams ["TranscriptionEvent"; "EventType"; "SpeechEventType"] in
    let explicitFinal := readBoolean (readString bodyParams ["IsFinal"; "Final"]) in
    let isFinal :=
      match explicitFinal with
      | Some b => b
      | None =>
          match dataIsFinal transcriptionData with
          | Some b => b
          | None => truthy eventName && namesFinalEvent (default "" eventName)
          end
      end in
    let speakerHint :=
      orElse
        (readString bodyParams
           ["Track"; "track"; "Channel"; "ChannelName"; "ParticipantRole"; "ParticipantLabel"])
        (speakerHint transcriptionData) in
    let speaker := parseSpeaker speakerHint in
    let timestamp :=
      parseTimestamp
        (orElse
           (readString bodyParams
              ["Timestamp"; "Time"; "SequenceStartTime"; "TranscriptionTimestamp"; "DateCreated"])
           (timestampHint transcriptionData))
        now in
    let sourceEventId :=
      buildSourceEventId (default "" callSid)
        (readString bodyParams ["TranscriptionSid"; "TranscriptionSessionSid"])
        (readString bodyParams ["SequenceId"; "ResultIndex"; "SegmentIndex"])
        (readString bodyParams ["TranscriptionSegmentSid"; "SegmentSid"])
        (sourceHint transcriptionData)
        timestamp speaker (default "" transcriptText) in
    {| callSid := callSid; accountSid := accountSid; slug := slug; status := status;
       transcript :=
         Some {| text := default "" transcriptText; speaker := speaker; isFinal := isFinal;
                 timestamp := timestamp; sourceEventId := sourceEventId |} |}.

End Platform.

End Webhook.

(** ** Advice scheduler and webhook handler ([app/api/twilio/webhook/route.ts]) *)

Module Route.
Import Webhook.

Definition ADVICE_MIN_INTERVAL_MS : Z := 900.
Definition ADVICE_TRANSCRIPT_LIMIT : nat := 40.

Record AdviceRunState := {
  running : bool;
  pending : bool;
  lastRunAt : Z
}.

Definition setRunning (value : bool) (state : AdviceRunState) : AdviceRunState :=
  {| running := value; pending := pending state; lastRunAt := lastRunAt state |}.

Definition setPending (value : bool) (state : AdviceRunState) : AdviceRunState :=
  {| running := running state; pending := value; lastRunAt := lastRunAt state |}.

Definition setLastRunAt (value : Z) (state : AdviceRunState) : AdviceRunState :=
  {| running := running state; pending := pending state; lastRunAt := value |}.

(** The literal [{ running: false, pending: false, lastRunAt: 0 }]. *)
Definition freshRunState : AdviceRunState :=
  {| running := false; pending := false; lastRunAt := 0 |}.

(** A thrown value: an [Error] with its message, or anything else. *)
Inductive Thrown := ErrorWith (message : string) | OtherValue.

(** How an awaited promise settles. *)
Inductive Settled (A : Type) := Fulfilled (value : A) | Rejected (reason : Thrown).
Arguments Fulfilled {A} value.
Arguments Rejected {A} reason.

(** How a computation ends; [Unfinished] is a loop cut off by its fuel. *)
Inductive Result (A : Type) := Returned (value : A) | Threw (reason : Thrown) | Unfinished.
Arguments Returned {A} value.
Arguments Threw {A} reason.
Arguments Unfinished {A}.

(** The fields of a stored call session that the handler reads. *)
Record Summary := {
  summarySlug : string;
  lastAdviceAt : option Z
}.

Inductive SessionStatus := queued | ringing | live | ended | failed.

Record TwilioConfig := {
  configAccountSid : string;
  authToken : string;
  phoneNumber : string
}.

Record Request := {
  signatureHeader : option string;   (* request.headers.get('x-twilio-signature') *)
  urlCandidates : list string;       (* buildTwilioUrlCandidates(request.url, request.headers) *)
  bodyParams : TwilioWebhookParams;  (* parseTwilioFormBody(await request.text()) *)
  slugFromQuery : option string      (* request.nextUrl.searchParams.get('slug') *)
}.

(** [NextResponse.json({ ok, error }, { status })] *)
Record Response := {
  statusCode : nat;
  ok : bool;
  error : option string
}.

Definition isSlugChar (c : ascii) : bool :=
  Js.between 97 122 c || Js.between 48 57 c || (Js.code c =? 45)%N.

(** [!!slug && /^[a-z0-9-]{3,64}$/.test(slug)] *)
Definition isValidSlug (slug : option string) : bool :=
  truthy slug &&
  let chars := list_ascii_of_string (default "" slug) in
  forallb isSlugChar chars && (3 <=? length chars) && (length chars <=? 64).

Section Collaborators.

(** Types and functions of [lib/live-types], [lib/live-coach] and
    [lib/live-store], which the handler only calls. *)
Variable Advice : Type.
Variable Chunk : Type.
Variable normalizeSessionStatus : string -> SessionStatus.
Variable isTerminalStatus : SessionStatus -> bool.

(** The advice handed to [setLiveCallAdvice]. *)
Inductive AdviceValue :=
| Generated (advice : Advice)     (* the value of [generateLiveAdvice] *)
| DefaultAdvice.                  (* the value of [createDefaultAdvice()] *)

Inductive Call :=
| GetLiveCallSummary (callSid : string)
| GetTranscriptChunks (callSid : string) (limit : nat)
| SetLiveCallAnalyzing (callSid : string) (analyzing : bool)
| GenerateLiveAdvice (transcript : list Chunk)
| SetLiveCallAdvice (callSid : string) (advice : AdviceValue) (error : option string)
| UpsertLiveCallSession (callSid slug : string) (status : option string)
| SetLiveCallStatus (callSid : string) (status : SessionStatus) (error : option string)
| AppendTranscriptChunk (callSid : string) (chunk : Transcript).

(** The surroundings of one handler activation.  Every collaborator call and
    every reading of the clock takes one tick; the environment fixes, per
    tick, the clock, how each kind of call settles, and whether another
    request triggers advice for the same call while the call is awaited. *)
Record Env := {
  clock : nat -> Z;
  summaryAt : nat -> Settled (option Summary);
  chunksAt : nat -> Settled (list Chunk);
  adviceAt : nat -> Settled Advice;
  writeAt : nat -> Settled unit;
  triggerAt : nat -> bool
}.

Record World := {
  adviceRunState : gmap string AdviceRunState;   (* globalThis.__twilioAdviceRunState *)
  ticks : nat;
  calls : list (nat * Call)                       (* collaborator calls and their ticks, oldest first *)
}.

Definition current (w : World) (callSid : string) : AdviceRunState :=
  default freshRunState (adviceRunState w !! callSid).

(** Mutation of the state object held in the map under [callSid]. *)
Definition mutate (callSid : string) (f : AdviceRunState -> AdviceRunState) (w : World)
  : World :=
  {| adviceRunState := <[callSid := f (current w callSid)]> (adviceRunState w);
     ticks := ticks w;
     calls := calls w |}.

Definition M (A : Type) : Type := World -> Result A * World.

Definition ret {A} (a : A) : M A := fun w => (Returned a, w).

Definition bind {A B} (m : M A) (k : A -> M B) : M B :=
  fun w =>
    match m w with
    | (Returned a, w') => k a w'
    | (Threw e, w') => (Threw e, w')
    | (Unfinished, w') => (Unfinished, w')
    end.

Definition throw {A} (e : Thrown) : M A := fun w => (Threw e, w).

Definition tryCatch {A} (body : M A) (handler : Thrown -> M A) : M A :=
  fun w =>
    match body w with
    | (Threw e, w') => handler e w'
    | settled => settled
    end.

Definition tryFinally {A} (body : M A) (cleanup : World -> World) : M A :=
  fun w =>
    match body w with
    | (Unfinished, w') => (Unfinished, w')
    | (outcome, w') => (outcome, cleanup w')
    end.

Definition modify (f : World -> World) : M unit := fun w => (Returned tt, f w).

Definition getCurrent (callSid : string) : M AdviceRunState :=
  fun w => (Returned (current w callSid), w).

Variable env : Env.

(** [Date.now()] *)
Definition dateNow : M Z :=
  fun w =>
    (Returned (clock env (ticks w)),
     {| adviceRunState := adviceRunState w; ticks := S (ticks w); calls := calls w |}).

(** [await call]: the call is issued, settles as the environment says, and
    [meanwhile] is what other requests did to the world in between. *)
Definition await {A} (call : Call) (settle : nat -> Settled A) (meanwhile : World -> World)
  : M A :=
  fun w =>
    let t := ticks w in
    let w' := {| adviceRunState := adviceRunState w; ticks := S t;
                 calls := calls w ++ [(t, call)] |} in
    (match settle t with
     | Fulfilled a => Returned a
     | Rejected e => Threw e
     end,
     if triggerAt env t then meanwhile w' else w').

Local Notation "x <- m ;; k" := (bind m (fun x => k))
  (at level 100, m at next level, right associativity, only parsing).
Local Notation "m ;;; k" := (bind m (fun _ => k))
  (at level 100, right associativity, only parsing).

Definition DELAY_NOTICE : string :=
  "Live analysis is delayed. Keep verifying through official channels.".

(** What a trigger for [callSid] does while a run for it is in flight. *)
Definition triggerWhileRunning (callSid : string) : World -> World :=
  mutate callSid (setPending true).

(** The [try { generate; store } catch { store default }] block. *)
Definition generateAndStore (callSid : string) (transcript : list Chunk) : M unit :=
  let meanwhile := triggerWhileRunning callSid in
  tryCatch
    (advice <- await (GenerateLiveAdvice transcript) (adviceAt env) meanwhile ;;
     await (SetLiveCallAdvice callSid (Generated advice) None) (writeAt env) meanwhile)
    (fun _ =>
       tryCatch
         (await (SetLiveCallAdvice callSid DefaultAdvice (Some DELAY_NOTICE))
            (writeAt env) meanwhile)
         (fun _ => ret tt)).

(** The freshness test at the head of an iteration, with the short-circuit
    order of its [Date.now()] readings. *)
Definition adviceIsFresh (callSid : string) (force : bool) (summary : Summary) : M bool :=
  if force then ret false
  else
    match lastAdviceAt summary with
    | None => ret false
    | Some lastAdvice =>
        if (lastAdvice =? 0)%Z then ret false
        else
          now1 <- dateNow ;;
          if (now1 - lastAdvice <? ADVICE_MIN_INTERVAL_MS)%Z then
            now2 <- dateNow ;;
            state <- getCurrent callSid ;;
            ret (now2 - lastRunAt state <? ADVICE_MIN_INTERVAL_MS)%Z
          else ret false
    end.

(** One iteration of the [while (shouldRun)] loop.  The value is the
    [shouldRun] of the next loop test: [false] after a [break]. *)
Definition adviceIteration (callSid : string) (force : bool) : M bool :=
  let meanwhile := triggerWhileRunning callSid in
  modify (mutate callSid (setPending false)) ;;;
  summary <- await (GetLiveCallSummary callSid) (summaryAt env) meanwhile ;;
  match summary with
  | None => ret false
  | Some summary =>
      fresh <- adviceIsFresh callSid force summary ;;
      if fresh then ret false
      else
        transcript <-
          await (GetTranscriptChunks callSid ADVICE_TRANSCRIPT_LIMIT) (chunksAt env)
            meanwhile ;;
        if length transcript =? 0 then ret false
        else
          tryCatch
            (await (SetLiveCallAnalyzing callSid true) (writeAt env) meanwhile)
            (fun _ => ret tt) ;;;
          generateAndStore callSid transcript ;;;
          now <- dateNow ;;
          modify (mutate callSid (setLastRunAt now)) ;;;
          state <- getCurrent callSid ;;
          ret (pending state)
  end.

(** The loop itself, one unit of fuel per iteration; [force] is cleared after
    the first one. *)
Fixpoint adviceLoop (fuel : nat) (callSid : string) (force : bool) : M unit :=
  match fuel with
  | 0 => fun w => (Unfinished, w)
  | S fuel' =>
      shouldRun <- adviceIteration callSid force ;;
      if shouldRun then adviceLoop fuel' callSid false else ret tt
  end.

Definition runAdviceForCall (fuel : nat) (callSid : string) (force : bool) : M unit :=
  modify (mutate callSid (fun state => state)) ;;;
  state <- getCurrent callSid ;;
  if running state then modify (mutate callSid (setPending true))
  else
    now <- dateNow ;;
    if negb force && (now - lastRunAt state <? ADVICE_MIN_INTERVAL_MS)%Z then ret tt
    else
      modify (mutate callSid (setRunning true)) ;;;
      tryFinally (adviceLoop fuel callSid force) (mutate callSid (setRunning false)).

Section Handler.

Variable Number_ : string -> option Q.
Variable Date_parse : string -> option Z.
Variable JSON_parse : string -> option Json.
Variable sha1_hex : string -> string.
Variable hmac_sha1_base64 : string -> string -> string.

Definition json (status : nat) (ok : bool) (error : option string) : Response :=
  {| statusCode := status; ok := ok; error := error |}.

Definition MISSING_CONFIGURATION : Response :=
  json 500 false (Some "Twilio server configuration is missing.").

(** The message of the [catch] clause of [POST]. *)
Definition failureMessage (error : Thrown) : string :=
  match error with
  | ErrorWith message =>
      if bool_decide (message = "") then "Twilio webhook processing failed." else message
  | OtherValue => "Twilio webhook processing failed."
  end.

(** The signature check of [POST]: the rejection to send, if any. *)
Definition validate (twilioConfig : option TwilioConfig) (request : Request)
  : M (option Response) :=
  match twilioConfig with
  | None => ret (Some MISSING_CONFIGURATION)
  | Some config =>
      if truthy (signatureHeader request) then
        match isValidTwilioSignature hmac_sha1_base64 (authToken config)
                (default "" (signatureHeader request)) (urlCandidates request)
                (bodyParams request) with
        | None => throw OtherValue
        | Some true => ret None
        | Some false => ret (Some (json 401 false (Some "Invalid Twilio signature.")))
        end
      else ret (Some (json 401 false (Some "Missing Twilio signature.")))
  end.

(** The body of the [try] block of [POST]. *)
Definition processEvent (fuel : nat) (event : ParsedTwilioWebhookEvent) (sid : string)
  : M Response :=
  slug <-
    (if isValidSlug (slug event) then ret (slug event)
     else
       existing <- await (GetLiveCallSummary sid) (summaryAt env) (fun w => w) ;;
       ret (summarySlug <$> existing)) ;;
  if negb (truthy slug) then
    ret (json 400 false (Some "Missing case slug for call session."))
  else
    await (UpsertLiveCallSession sid (default "" slug) (status event)) (writeAt env)
      (fun w => w) ;;;
    (if truthy (status event) then
       let status' := normalizeSessionStatus (default "" (status event)) in
       let statusError :=
         match status' with
         | failed =>
             Some ("Call status changed to " +:+ default "" (status event) +:+ ".")
         | _ => None
         end in
       await (SetLiveCallStatus sid status' statusError) (writeAt env) (fun w => w)
     else ret tt) ;;;
    (match transcript event with
     | Some chunk =>
         await (AppendTranscriptChunk sid chunk) (writeAt env) (fun w => w) ;;;
         let normalizedStatus := normalizeSessionStatus (default "" (status event)) in
         let callEnded := isTerminalStatus normalizedStatus in
         runAdviceForCall fuel sid (isFinal chunk || callEnded)
     | None => ret tt
     end) ;;;
    ret (json 200 true None).

(** [POST] from the parsing of the event on.  The clock reading handed to
    the normaliser is taken whether or not the normaliser needs it. *)
Definition handleEvent (twilioConfig : option TwilioConfig) (fuel : nat)
    (request : Request) : M Response :=
  now <- dateNow ;;
  let event :=
    parseTwilioWebhookEvent Number_ Date_parse JSON_parse sha1_hex
      (bodyParams request) (slugFromQuery request) now in
  if negb (truthy (callSid event)) then ret (json 200 true None)
  else
    let mismatch :=
      match twilioConfig with
      | Some config =>
          truthy (accountSid event) &&
          negb (bool_decide (default "" (accountSid event) = configAccountSid config))
      | None => false
      end in
    if mismatch then ret (json 401 false (Some "Twilio account mismatch."))
    else
      tryCatch (processEvent fuel event (default "" (callSid event)))
        (fun error => ret (json 500 false (Some (failureMessage error)))).

(** [twilioConfig] is the value of [getTwilioConfig()], [skipValidation] that
    of [shouldSkipTwilioWebhookValidation()]. *)
Definition POST (twilioConfig : option TwilioConfig) (skipValidation : bool)
    (fuel : nat) (request : Request) : M Response :=
  if bool_decide (twilioConfig = None) && negb skipValidation
  then ret MISSING_CONFIGURATION
  else
    rejection <- (if skipValidation then ret None else validate twilioConfig request) ;;
    match rejection with
    | Some response => ret response
    | None => handleEvent twilioConfig fuel request
    end.

End Handler.

End Collaborators.

Arguments Generated {Advice} advice.
Arguments DefaultAdvice {Advice}.
Arguments GetLiveCallSummary {Advice Chunk} callSid.
Arguments GetTranscriptChunks {Advice Chunk} callSid limit.
Arguments SetLiveCallAnalyzing {Advice Chunk} callSid analyzing.
Arguments GenerateLiveAdvice {Advice Chunk} transcript.
Arguments SetLiveCallAdvice {Advice Chunk} callSid advice error.
Arguments UpsertLiveCallSession {Advice Chunk} callSid slug status.
Arguments SetLiveCallStatus {Advice Chunk} callSid status error.
Arguments AppendTranscriptChunk {Advice Chunk} callSid chunk.
Arguments clock {Advice Chunk} e t.
Arguments summaryAt {Advice Chunk} e t.
Arguments chunksAt {Advice Chunk} e t.
Arguments adviceAt {Advice Chunk} e t.
Arguments writeAt {Advice Chunk} e t.
Arguments triggerAt {Advice Chunk} e t.
Arguments adviceRunState {Advice Chunk} w.
Arguments ticks {Advice Chunk} w.
Arguments calls {Advice Chunk} w.
Arguments current {Advice Chunk} w callSid.
Arguments mutate {Advice Chunk} callSid f w.
Arguments ret {Advice Chunk A} a w.
Arguments bind {Advice Chunk A B} m k w.
Arguments throw {Advice Chunk A} e w.
Arguments tryCatch {Advice Chunk A} body handler w.
Arguments tryFinally {Advice Chunk A} body cleanup w.
Arguments modify {Advice Chunk} f w.
Arguments getCurrent {Advice Chunk} callSid w.
Arguments dateNow {Advice Chunk} env w.
Arguments await {Advice Chunk} env {A} call settle meanwhile w.
Arguments triggerWhileRunning {Advice Chunk} callSid w.
Arguments generateAndStore {Advice Chunk} env callSid transcript w.
Arguments adviceIsFresh {Advice Chunk} env callSid force summary w.
Arguments adviceIteration {Advice Chunk} env callSid force w.
Arguments adviceLoop {Advice Chunk} env fuel callSid force w.
Arguments runAdviceForCall {Advice Chunk} env fuel callSid force w.
Arguments validate {Advice Chunk} hmac_sha1_base64 twilioConfig request w.
Arguments processEvent {Advice Chunk} normalizeSessionStatus isTerminalStatus env
  fuel event sid w.
Arguments handleEvent {Advice Chunk} normalizeSessionStatus isTerminalStatus env
  Number_ Date_parse JSON_parse sha1_hex twilioConfig fuel request w.
Arguments POST {Advice Chunk} normalizeSessionStatus isTerminalStatus env
  Number_ Date_parse JSON_parse sha1_hex hmac_sha1_base64
  twilioConfig skipValidation fuel request w.

End Route.

(** ** Vocabulary of the statements *)

Module MergeSpec.
Import Js Merge.

(** [p] occurs in [s] as a contiguous piece. *)
Definition Substring (p s : text) : Prop := exists a b, s = a ++ p ++ b.

(** Every whitespace character of [s] is a single SPACE standing alone;
    with [afterSpace], [s] does not start with one either. *)
Fixpoint spaced (afterSpace : bool) (s : text) : bool :=
  match s with
  | [] => true
  | c :: r =>
      if isWhiteSpace c
      then bool_decide (c = " "%char) && negb afterSpace && spaced true r
      else spaced false r
  end.

(** The last character of [s] is whitespace ([b] for the empty text). *)
Fixpoint endsWithSpace (b : bool) (s : text) : bool :=
  match s with
  | [] => b
  | c :: r => endsWithSpace (isWhiteSpace c) r
  end.

(** Whitespace-normal texts: single spaces only, none at either end. *)
Definition clean (s : text) : bool :=
  spaced true s && negb (endsWithSpace false s).

Definition noWhiteSpace (w : text) : bool :=
  forallb (fun c => negb (isWhiteSpace c)) w.

Definition isWord (w : text) : bool := negb (isEmpty w) && noWhiteSpace w.

(** The restart judgement in the words of the specification, on the token
    lists of the two fragments. *)
Definition firstTwoTokensMatch (previousTokens nextTokens : list text) : Prop :=
  2 <= length nextTokens /\ firstn 2 nextTokens = firstn 2 previousTokens.

Definition firstTokenMatches (previousTokens nextTokens : list text) : Prop :=
  nextTokens <> [] /\ head nextTokens = head previousTokens.

Definition judgedRestart (previous next : text) : Prop :=
  let previousTokens := Restart.tokenize previous in
  let nextTokens := Restart.tokenize next in
  firstTwoTokensMatch previousTokens nextTokens \/
  (firstTokenMatches previousTokens nextTokens /\ 4 <= length nextTokens) \/
  (firstTokenMatches previousTokens nextTokens /\
   4 <= length nextTokens /\ 7 * length previousTokens <= 10 * length nextTokens).

End MergeSpec.

Module WebhookSpec.
Import Webhook.

(** The canonical form of the body in the words of the specification:
    [key1 + value1 + key2 + value2 + ...]. *)
Fixpoint serialize (pairs : list (string * string)) : string :=
  match pairs with
  | [] => ""
  | (key, value) :: rest => key +:+ value +:+ serialize rest
  end.

(** A retried delivery without any identifier or timestamp field. *)
Definition bareDelivery : TwilioWebhookParams :=
  <["CallSid" := "CA1"]> (<["TranscriptionText" := "hello"]> ∅).

End WebhookSpec.

Module RouteSpec.
Import Webhook Route.

Section Traces.
Context {Advice Chunk : Type}.
Variable env : Env Advice Chunk.
Variable callSid : string.


(** A trigger for the call arrives at some tick of [from, to). *)
Definition TriggerWithin (from to : nat) : Prop :=
  exists t, from <= t < to /\ triggerAt env t = true.



(** How the world changes while a run for [callSid] is in flight: time
    passes, [pending] is raised only by a trigger, and [issued] are the
    collaborator calls made. *)
Definition Drifts (w w' : World Advice Chunk) (issued : list (nat * Call Advice Chunk))
  : Prop :=
  ticks w <= ticks w' /\
  (pending (current w' callSid) = true ->
   pending (current w callSid) = true \/ TriggerWithin (ticks w) (ticks w')) /\
  calls w' = calls w ++ issued.





End Traces.

(** Sample surroundings: a clock at 1000, an empty store, no trigger. *)
Definition quietEnv : Env unit unit :=
  {| clock := fun _ => 1000%Z;
     summaryAt := fun _ => Fulfilled None;
     chunksAt := fun _ => Fulfilled [];
     adviceAt := fun _ => Fulfilled tt;
     writeAt := fun _ => Fulfilled tt;
     triggerAt := fun _ => false |}.

(** A store with one transcript chunk whose advice generation times out. *)
Definition failingGeneratorEnv : Env unit unit :=
  {| clock := fun _ => 5000%Z;
     summaryAt := fun _ => Fulfilled (Some {| summarySlug := "case-1"; lastAdviceAt := None |});
     chunksAt := fun _ => Fulfilled [tt];
     adviceAt := fun _ => Rejected (ErrorWith "timeout");
     writeAt := fun _ => Fulfilled tt;
     triggerAt := fun _ => false |}.

(** A store whose writes are rejected. *)
Definition brokenStoreEnv : Env unit unit :=
  {| clock := fun _ => 1000%Z;
     summaryAt := fun _ => Fulfilled None;
     chunksAt := fun _ => Fulfilled [];
     adviceAt := fun _ => Fulfilled tt;
     writeAt := fun _ => Rejected (ErrorWith "connection refused");
     triggerAt := fun _ => false |}.

Definition worldWith (states : gmap string AdviceRunState) : World unit unit :=
  {| adviceRunState := states; ticks := 0; calls := [] |}.

Definition runningState : AdviceRunState :=
  {| running := true; pending := false; lastRunAt := 400 |}.

Definition recentState : AdviceRunState :=
  {| running := false; pending := false; lastRunAt := 400 |}.

(** A status event for call CA1 of case "case-1", and the same event without
    any case slug. *)
Definition statusRequest : Request :=
  {| signatureHeader := None; urlCandidates := [];
     bodyParams := <["CallSid" := "CA1"]> (<["CallStatus" := "in-progress"]> ∅);
     slugFromQuery := Some "case-1" |}.


(** [POST] with validation skipped and stand-ins for the platform functions
    that these requests never reach. *)
Definition postUnvalidated (env : Env unit unit) (request : Request)
  : Result Response :=
  fst (POST (fun _ => live) (fun _ => false) env
         (fun _ => None) (fun _ => None) (fun _ => None) (fun s => s) (fun _ s => s)
         None true 1 request (worldWith ∅)).

End RouteSpec.

Module MergeWords.
Import Js Merge.

(** The last [k] words of [previousWords] and the first [k] words of
    [nextWords] have the same tokens, none of them empty. *)
Definition overlapAt (previousWords nextWords : list text) (k : nat) : Prop :=
  k <= length previousWords /\ k <= length nextWords /\
  map normalizeToken (skipn (length previousWords - k) previousWords)
  = map normalizeToken (firstn k nextWords) /\
  Forall (fun token => token <> []) (map normalizeToken (firstn k nextWords)).

(** No word of [words] repeats the non-empty token of the word before it;
    [previousToken] stands before the first word. *)
Fixpoint distinctFrom (previousToken : text) (words : list text) : Prop :=
  match words with
  | [] => True
  | word :: rest =>
      (normalizeToken word = previousToken -> normalizeToken word = []) /\
      distinctFrom (normalizeToken word) rest
  end.

End MergeWords.

(** ** Server configuration ([lib/twilio-api.ts], [lib/twilio-webhook.ts]) *)

Module Config.
Import Webhook Route.

(** [process.env] *)
Abbreviation ProcessEnv := (gmap string string).

(** [process.env.NAME?.trim()] *)
Definition trimmedVar (env : ProcessEnv) (name : string) : option string :=
  trim <$> env !! name.

Definition readTwilioEnv (env : ProcessEnv) : option TwilioConfig :=
  let accountSid := trimmedVar env "TWILIO_ACCOUNT_SID" in
  let authToken := trimmedVar env "TWILIO_AUTH_TOKEN" in
  let phoneNumber := trimmedVar env "TWILIO_PHONE_NUMBER" in
  if negb (truthy accountSid) || negb (truthy authToken) || negb (truthy phoneNumber)
  then None
  else Some {| configAccountSid := default "" accountSid;
               authToken := default "" authToken;
               phoneNumber := default "" phoneNumber |}.

Definition getTwilioConfig (env : ProcessEnv) : option TwilioConfig := readTwilioEnv env.

Definition shouldSkipTwilioWebhookValidation (env : ProcessEnv) : bool :=
  bool_decide (env !! "TWILIO_WEBHOOK_SKIP_SIGNATURE_VALIDATION" = Some "1") ||
  bool_decide (env !! "NODE_ENV" = Some "test").

(** A production environment whose auth token is blank. *)
Definition blankTokenEnv : ProcessEnv :=
  <["TWILIO_ACCOUNT_SID" := "AC1"]>
    (<["TWILIO_AUTH_TOKEN" := "  "]>
       (<["TWILIO_PHONE_NUMBER" := "+14155552671"]>
          (<["NODE_ENV" := "production"]> ∅))).

End Config.

Module RouteCounts.
Import Webhook Route.

Section Counts.
Context {Advice Chunk : Type}.

(** The number of [generateLiveAdvice] calls in a call log. *)
Fixpoint generations (log : list (nat * Call Advice Chunk)) : nat :=
  match log with
  | [] => 0
  | (_, GenerateLiveAdvice _) :: rest => S (generations rest)
  | _ :: rest => generations rest
  end.

(** The number of ticks of [from, from + span) at which a trigger arrives. *)
Definition triggersFrom (env : Env Advice Chunk) (from span : nat) : nat :=
  length (List.filter (triggerAt env) (seq from span)).

(** The run states of the calls other than [callSid] are the same in [w]
    and [w']. *)
Definition Elsewhere (callSid : string) (w w' : World Advice Chunk) : Prop :=
  forall other, other <> callSid -> adviceRunState w' !! other = adviceRunState w !! other.

(** From [w] to [w'] the run for [callSid] drifts as in [RouteSpec.Drifts],
    leaves the other calls alone, and generates advice at most [g] times. *)
Definition Walk (env : Env Advice Chunk) (callSid : string) (g : nat)
    (w w' : World Advice Chunk) : Prop :=
  Elsewhere callSid w w' /\
  exists issued, RouteSpec.Drifts env callSid w w' issued /\ generations issued <= g.

End Counts.

(** Two calls: CA1 idle since tick-time 400, CA2 with a run in flight. *)
Definition twoCalls : World unit unit :=
  RouteSpec.worldWith
    (<["CA1" := RouteSpec.recentState]> (<["CA2" := RouteSpec.runningState]> ∅)).

(** A request whose signature header is missing. *)
Definition unsignedRequest : Request :=
  {| signatureHeader := None; urlCandidates := ["https://example.test/api/twilio/webhook"];
     bodyParams := <["CallSid" := "CA1"]> ∅;
     slugFromQuery := Some "case-1" |}.

(** A request about no call at all. *)
Definition strayRequest : Request :=
  {| signatureHeader := None; urlCandidates := [];
     bodyParams := <["Foo" := "bar"]> ∅;
     slugFromQuery := Some "case-1" |}.

End RouteCounts.

(** * Properties *)

(** ** String primitives *)

Section JsFacts.
Import Js MergeSpec.

Lemma dropWhile_all p (s : text) : forallb p s = true -> dropWhile p s = [].
Proof.
  induction s as [|c r IH]; simpl; [reflexivity|].
  destruct (p c); simpl; [exact IH | discriminate].
Qed.

Lemma dropWhile_some p (s : text) : forallb p s = false -> dropWhile p s <> [].
Proof.
  induction s as [|c r IH]; simpl; [discriminate|].
  destruct (p c); simpl; [exact IH | discriminate].
Qed.

Lemma dropWhile_app p (a b : text) :
  dropWhile p (a ++ b) = if forallb p a then dropWhile p b else dropWhile p a ++ b.
Proof.
  induction a as [|c r IH]; simpl; [reflexivity|].
  destruct (p c); simpl; [exact IH | reflexivity].
Qed.

Lemma dropWhileEnd_cons p c (s : text) :
  dropWhileEnd p (c :: s) =
  match dropWhileEnd p s with
  | [] => if p c then [] else [c]
  | r => c :: r
  end.
Proof.
  unfold dropWhileEnd. simpl rev. rewrite dropWhile_app.
  destruct (forallb p (rev s)) eqn:E.
  - rewrite (dropWhile_all _ _ E). simpl. destruct (p c); reflexivity.
  - apply dropWhile_some in E. rewrite rev_app_distr. simpl.
    destruct (dropWhile p (rev s)) as [|x l] eqn:D; [congruence|].
    destruct (rev (x :: l)) eqn:R; [|reflexivity].
    apply (f_equal (@length _)) in R. rewrite length_rev in R. discriminate.
Qed.

Lemma startsWith_spec (s p : text) :
  startsWith s p = true <-> exists b, s = p ++ b.
Proof.
  revert s. induction p as [|x p IH]; intros s; simpl.
  - split; [intros _; exists s; reflexivity | reflexivity].
  - destruct s as [|y s].
    + split; [discriminate | intros [b Hb]; discriminate].
    + rewrite andb_true_iff, bool_decide_eq_true, IH. split.
      * intros [-> [b ->]]. exists b. reflexivity.
      * intros [b Hb]. injection Hb as -> ->. split; [reflexivity | exists b; reflexivity].
Qed.


Lemma Substring_antisym (p s : text) : Substring p s -> Substring s p -> p = s.
Proof.
  intros [a [b H1]] [a' [b' H2]].
  assert (L : length s = length a + (length p + length b))
    by (rewrite H1, !length_app; reflexivity).
  assert (L' : length p = length a' + (length s + length b'))
    by (rewrite H2, !length_app; reflexivity).
  destruct a; [|simpl in L; lia]. destruct b; [|simpl in L; lia].
  rewrite H1. simpl. rewrite app_nil_r. reflexivity.
Qed.

Lemma isEmpty_true (s : text) : isEmpty s = true <-> s = [].
Proof. destruct s; simpl; split; congruence. Qed.

Lemma isEmpty_false (s : text) : isEmpty s = false <-> s <> [].
Proof. destruct s; simpl; split; congruence. Qed.

Lemma toLowerCase_nil (s : text) : toLowerCase s = [] <-> s = [].
Proof. destruct s; simpl; split; congruence. Qed.

Lemma eqb_refl (s : text) : eqb s s = true.
Proof. unfold eqb. apply bool_decide_eq_true. reflexivity. Qed.

End JsFacts.

(** ** Whitespace normalisation *)

Section Normalisation.
Import Js Merge MergeSpec.

Lemma spaced_replaceWhiteSpaceRuns (x : text) b :
  spaced b (replaceWhiteSpaceRuns b x) = true.
Proof.
  revert b. induction x as [|c r IH]; intros b; simpl; [reflexivity|].
  destruct (isWhiteSpace c) eqn:E.
  - destruct b; [apply IH|]. simpl. apply IH.
  - simpl. rewrite E. apply IH.
Qed.

Lemma spaced_weaken (s : text) b : spaced true s = true -> spaced b s = true.
Proof.
  destruct s as [|c r]; simpl; [reflexivity|].
  destruct (isWhiteSpace c); [|tauto].
  rewrite andb_false_r. discriminate.
Qed.

Lemma spaced_dropWhile (s : text) b :
  spaced b s = true -> spaced true (dropWhile isWhiteSpace s) = true.
Proof.
  revert b. induction s as [|c r IH]; intros b; simpl; [reflexivity|].
  destruct (isWhiteSpace c) eqn:E.
  - rewrite !andb_true_iff. intros [_ H]. apply (IH true H).
  - simpl. rewrite E. tauto.
Qed.

Lemma dropWhile_spaced_id (s : text) :
  spaced true s = true -> dropWhile isWhiteSpace s = s.
Proof.
  destruct s as [|c r]; simpl; [reflexivity|].
  destruct (isWhiteSpace c); [|reflexivity].
  rewrite andb_false_r. discriminate.
Qed.

Lemma spaced_dropWhileEnd (s : text) b :
  spaced b s = true -> spaced b (dropWhileEnd isWhiteSpace s) = true.
Proof.
  revert b. induction s as [|c r IH]; intros b H; [reflexivity|].
  rewrite dropWhileEnd_cons. simpl in H.
  destruct (isWhiteSpace c) eqn:E.
  - apply andb_true_iff in H as [H1 H2]. specialize (IH true H2).
    destruct (dropWhileEnd isWhiteSpace r) as [|x l]; [reflexivity|].
    simpl spaced at 1. rewrite E, H1. exact IH.
  - specialize (IH false H).
    destruct (dropWhileEnd isWhiteSpace r) as [|x l]; simpl; rewrite E; [reflexivity|].
    exact IH.
Qed.

Lemma endsWithSpace_dropWhileEnd (s : text) b :
  endsWithSpace b (dropWhileEnd isWhiteSpace s) =
  if isEmpty (dropWhileEnd isWhiteSpace s) then b else false.
Proof.
  revert b. induction s as [|c r IH]; intros b; [reflexivity|].
  rewrite dropWhileEnd_cons.
  destruct (dropWhileEnd isWhiteSpace r) as [|x l] eqn:D.
  - destruct (isWhiteSpace c) eqn:E; simpl; [reflexivity | exact E].
  - specialize (IH (isWhiteSpace c)). simpl in *. exact IH.
Qed.

Lemma endsWithSpace_nonempty (s : text) b b' :
  s <> [] -> endsWithSpace b s = endsWithSpace b' s.
Proof. destruct s; [congruence | reflexivity]. Qed.

Lemma dropWhileEnd_id (s : text) b :
  endsWithSpace b s = false -> dropWhileEnd isWhiteSpace s = s.
Proof.
  revert b. induction s as [|c r IH]; intros b H; [reflexivity|].
  rewrite dropWhileEnd_cons. simpl in H. rewrite (IH _ H).
  destruct r; [|reflexivity]. simpl in H. rewrite H. reflexivity.
Qed.

Lemma replaceWhiteSpaceRuns_id (s : text) b :
  spaced b s = true -> replaceWhiteSpaceRuns b s = s.
Proof.
  revert b. induction s as [|c r IH]; intros b; simpl; [reflexivity|].
  destruct (isWhiteSpace c).
  - rewrite !andb_true_iff, bool_decide_eq_true, negb_true_iff.
    intros [[-> ->] H]. rewrite (IH _ H). reflexivity.
  - intros H. rewrite (IH _ H). reflexivity.
Qed.

Lemma clean_normalizeTranscriptText (x : text) :
  clean (normalizeTranscriptText x) = true.
Proof.
  unfold clean, normalizeTranscriptText, trim. apply andb_true_iff. split.
  - apply spaced_dropWhileEnd, (spaced_dropWhile _ false), spaced_replaceWhiteSpaceRuns.
  - rewrite endsWithSpace_dropWhileEnd. destruct (isEmpty _); reflexivity.
Qed.

Lemma normalizeTranscriptText_clean (s : text) :
  clean s = true -> normalizeTranscriptText s = s.
Proof.
  unfold clean, normalizeTranscriptText, trim.
  rewrite andb_true_iff, negb_true_iff. intros [H1 H2].
  rewrite (replaceWhiteSpaceRuns_id _ _ (spaced_weaken _ false H1)).
  rewrite (dropWhile_spaced_id _ H1). apply (dropWhileEnd_id _ _ H2).
Qed.

Lemma normalizeTranscriptText_idempotent (x : text) :
  normalizeTranscriptText (normalizeTranscriptText x) = normalizeTranscriptText x.
Proof. apply normalizeTranscriptText_clean, clean_normalizeTranscriptText. Qed.

Lemma normalizeTranscriptText_nil : normalizeTranscriptText [] = [].
Proof. reflexivity. Qed.

(** Words: joining them gives a whitespace-normal text, and splitting a
    whitespace-normal text gives words. *)

Lemma spaced_word_app (w s : text) b :
  noWhiteSpace w = true ->
  spaced b (w ++ s) = spaced (if isEmpty w then b else false) s.
Proof.
  revert b. induction w as [|c w IH]; intros b; simpl; [reflexivity|].
  rewrite andb_true_iff, negb_true_iff. intros [E H]. rewrite E, (IH _ H).
  destruct w; reflexivity.
Qed.

Lemma endsWithSpace_word_app (w s : text) b :
  noWhiteSpace w = true ->
  endsWithSpace b (w ++ s) = endsWithSpace (if isEmpty w then b else false) s.
Proof.
  revert b. induction w as [|c w IH]; intros b; simpl; [reflexivity|].
  rewrite andb_true_iff, negb_true_iff. intros [E H]. rewrite E, (IH _ H).
  destruct w; reflexivity.
Qed.

Lemma isWord_inv (w : text) :
  isWord w = true -> isEmpty w = false /\ noWhiteSpace w = true.
Proof. unfold isWord. rewrite andb_true_iff, negb_true_iff. tauto. Qed.

Lemma join_cons2 sep (w w' : text) ws :
  join sep (w :: w' :: ws) = w ++ sep :: join sep (w' :: ws).
Proof. reflexivity. Qed.

Lemma join_nonempty (w : text) ws : w <> [] -> join " " (w :: ws) <> [].
Proof.
  destruct ws; simpl; [tauto|]. destruct w; [congruence | discriminate].
Qed.

Lemma clean_join (ws : list text) :
  Forall (fun w => isWord w = true) ws -> clean (join " " ws) = true.
Proof.
  induction 1 as [|w ws Hw Hws IH]; [reflexivity|].
  apply isWord_inv in Hw as [Hne Hno].
  destruct ws as [|w' ws].
  - simpl. unfold clean. rewrite <- (app_nil_r w).
    rewrite (spaced_word_app _ _ _ Hno), (endsWithSpace_word_app _ _ _ Hno), Hne.
    reflexivity.
  - rewrite join_cons2. unfold clean in *.
    rewrite (spaced_word_app _ _ _ Hno), (endsWithSpace_word_app _ _ _ Hno), Hne.
    apply andb_true_iff in IH as [IH1 IH2]. cbn -[join]. rewrite IH1. cbn -[join].
    rewrite (endsWithSpace_nonempty _ true false); [exact IH2|].
    apply join_nonempty. inversion Hws as [|? ? Hw' _]; subst.
    apply isWord_inv in Hw' as [Hw' _]. apply isEmpty_false. exact Hw'.
Qed.

Lemma split_spaced (s : text) :
  spaced false s = true -> endsWithSpace false s = false ->
  exists w0 ws,
    split " " s = w0 :: ws /\ noWhiteSpace w0 = true /\
    Forall (fun w => isWord w = true) ws /\
    (spaced true s = true -> s <> [] -> w0 <> []).
Proof.
  induction s as [|c r IH]; intros Hs He.
  - exists [], []. repeat split; [constructor | congruence].
  - simpl in Hs, He. simpl split. destruct (isWhiteSpace c) eqn:E.
    + rewrite !andb_true_iff, bool_decide_eq_true in Hs. destruct Hs as [[-> _] Hr].
      destruct r as [|c' r']; [simpl in He; discriminate|].
      destruct (IH (spaced_weaken _ false Hr) He) as (w0 & ws & Hsp & Hno & Hws & Hw0).
      rewrite bool_decide_eq_true_2 by reflexivity.
      exists [], (w0 :: ws). rewrite Hsp. repeat split; [|simpl; discriminate].
      constructor; [|exact Hws]. unfold isWord. rewrite Hno, andb_true_r.
      apply negb_true_iff, isEmpty_false, Hw0; [exact Hr | discriminate].
    + assert (He' : endsWithSpace false r = false) by (destruct r; [reflexivity | exact He]).
      destruct (IH Hs He') as (w0 & ws & Hsp & Hno & Hws & _).
      rewrite bool_decide_eq_false_2 by (intros ->; discriminate).
      rewrite Hsp. exists (c :: w0), ws. repeat split; [|exact Hws|discriminate].
      simpl. rewrite E. exact Hno.
Qed.

Lemma words_split (s : text) :
  clean s = true -> s <> [] -> Forall (fun w => isWord w = true) (split " " s).
Proof.
  unfold clean. rewrite andb_true_iff, negb_true_iff. intros [H1 H2] Hne.
  destruct (split_spaced s (spaced_weaken _ false H1) H2) as (w0 & ws & -> & Hno & Hws & Hw0).
  constructor; [|exact Hws]. unfold isWord. rewrite Hno, andb_true_r.
  apply negb_true_iff, isEmpty_false, Hw0; assumption.
Qed.

Lemma words_collapseFrom token (ws : list text) :
  Forall (fun w => isWord w = true) ws ->
  Forall (fun w => isWord w = true) (collapseFrom token ws).
Proof.
  intros H. revert token. induction H as [|w ws Hw Hws IH]; intros token; simpl.
  - constructor.
  - destruct (negb _ && _); [apply IH | constructor; [exact Hw | apply IH]].
Qed.

Lemma clean_stitched (previousWords nextWords : list text) :
  Forall (fun w => isWord w = true) previousWords ->
  Forall (fun w => isWord w = true) nextWords ->
  clean (join " " (collapseDuplicateWords (previousWords ++ nextWords))) = true.
Proof.
  intros Hp Hn. apply clean_join, words_collapseFrom, Forall_app. split; assumption.
Qed.

End Normalisation.

(** ** Transcript merge engine *)

Section MergeFacts.
Import Js Merge MergeSpec.

Lemma countPrefixTokenMatches_two (previousTokens nextTokens : list text) :
  2 <= Restart.countPrefixTokenMatches previousTokens nextTokens <->
  firstTwoTokensMatch previousTokens nextTokens.
Proof.
  unfold firstTwoTokensMatch.
  destruct previousTokens as [|p1 [|p2 ps]], nextTokens as [|n1 [|n2 ns]];
    simpl; unfold eqb; repeat case_bool_decide; simpl; subst;
    split; try lia; try (intros [? ?]; congruence); try (intros [? ?]; lia).
  intros _. split; [lia | reflexivity].
Qed.

Lemma countPrefixTokenMatches_one (previousTokens nextTokens : list text) :
  1 <= Restart.countPrefixTokenMatches previousTokens nextTokens <->
  firstTokenMatches previousTokens nextTokens.
Proof.
  unfold firstTokenMatches.
  destruct previousTokens as [|p1 ps], nextTokens as [|n1 ns];
    simpl; unfold eqb; repeat case_bool_decide; simpl; subst;
    split; try lia; try (intros [? ?]; congruence).
  intros _. split; [discriminate | reflexivity].
Qed.

(** The restart test of the code decides the judgement of the
    specification; its third test never adds a case to the second. *)
Lemma looksLikeRestart_spec (previous next : text) :
  Restart.looksLikeRestart previous next = true <-> judgedRestart previous next.
Proof.
  unfold Restart.looksLikeRestart, judgedRestart.
  set (pt := Restart.tokenize previous). set (nt := Restart.tokenize next).
  pose proof (countPrefixTokenMatches_two pt nt) as H2.
  pose proof (countPrefixTokenMatches_one pt nt) as H1.
  destruct (length pt =? 0) eqn:Ep; [apply Nat.eqb_eq in Ep|apply Nat.eqb_neq in Ep].
  { destruct pt; [|discriminate]. simpl. split; [discriminate|].
    unfold firstTwoTokensMatch, firstTokenMatches.
    intros [[? ?]|[[[? ?] ?]|[[? ?] ?]]].
    - destruct nt as [|? [|? ?]]; simpl in *; try lia; discriminate.
    - destruct nt; simpl in *; congruence.
    - destruct nt; simpl in *; congruence. }
  destruct (length nt =? 0) eqn:En; [apply Nat.eqb_eq in En|apply Nat.eqb_neq in En].
  { destruct nt; [|discriminate]. simpl. split; [discriminate|].
    unfold firstTwoTokensMatch, firstTokenMatches.
    intros [[? ?]|[[[? ?] ?]|[[? ?] ?]]]; simpl in *; try lia; congruence. }
  cbn [orb]. set (matches := Restart.countPrefixTokenMatches pt nt) in *.
  destruct (2 <=? matches) eqn:E2; [apply Nat.leb_le in E2|apply Nat.leb_gt in E2].
  { split; [intros _; left; apply H2, E2 | reflexivity]. }
  assert (N2 : ~ firstTwoTokensMatch pt nt) by (rewrite <- H2; lia).
  destruct (1 <=? matches) eqn:E1; [apply Nat.leb_le in E1|apply Nat.leb_gt in E1];
    cbn [andb].
  - destruct (4 <=? length nt) eqn:E4; [apply Nat.leb_le in E4|apply Nat.leb_gt in E4].
    + split; [intros _; right; left; split; [apply H1, E1 | exact E4] | reflexivity].
    + destruct (Nat.max 4 _ <=? length nt) eqn:E3;
        [apply Nat.leb_le in E3; lia|]. rewrite andb_false_r.
      split; [discriminate|]. intros [F|[[_ F]|[_ [F _]]]]; [tauto|lia..].
  - assert (N1 : ~ firstTokenMatches pt nt) by (rewrite <- H1; lia).
    case_bool_decide as Hh; cbn [andb].
    + exfalso. apply N1. split; [destruct nt; simpl in *; congruence | congruence].
    + split; [discriminate|]. intros [F|[[F _]|[F _]]]; tauto.
Qed.

Lemma merge_returns (previousText nextText : text) isFinal :
  let previous := normalizeTranscriptText previousText in
  let next := normalizeTranscriptText nextText in
  forall P : text -> Prop,
    P previous -> P next ->
    (forall k, previous <> [] -> next <> [] ->
       P (join " " (collapseDuplicateWords
                      (split " " previous ++ skipn k (split " " next))))) ->
    P (Lib.mergeIncrementalTranscriptText previousText nextText isFinal) /\
    P (Restart.mergeIncrementalTranscriptText previousText nextText isFinal).
Proof.
  intros previous next P Hp Hn Hj.
  unfold Lib.mergeIncrementalTranscriptText, Restart.mergeIncrementalTranscriptText.
  fold previous next.
  destruct (isEmpty previous) eqn:Ep; [tauto|].
  destruct (isEmpty next) eqn:En; [tauto|].
  apply isEmpty_false in Ep, En.
  specialize (fun k => Hj k Ep En). pose proof (Hj 0) as Hj0. simpl in Hj0.
  split; repeat (match goal with |- context [if ?b then _ else _] => destruct b end);
    auto.
Qed.

End MergeFacts.

Section MergeClaims.
Import Js Merge MergeSpec.

(** C1, counterexample.  The fragment "a b" shares its first two tokens with
    "a b c d", so it is judged a restart; but the earlier containment rule
    wins and [merge] keeps the previous text. *)
Lemma restart_does_not_always_win :
  judgedRestart (lit "a b c d") (lit "a b") /\
  Restart.mergeIncrementalTranscriptText (lit "a b c d") (lit "a b") false <> lit "a b".
Proof.
  split.
  - left. split; vm_compute; [lia | reflexivity].
  - vm_compute. discriminate.
Qed.

(** C1, amended.  When no earlier rule of the decision order applies (both
    normalised fragments are non-empty, neither lower-cased text contains the
    other, and no word overlap is found) and [next] is judged a restart, the
    revision of [merge] that has the restart rule returns the normalised
    [next].  [lib/transcript-merge.ts] has no restart rule: for the same
    fragments it returns the normalised [next] only through its final-replace
    rule, and otherwise the words of both fragments, duplicates collapsed. *)
Theorem merge_restart_returns_next (previousText nextText : text) (isFinal : bool) :
  let previous := normalizeTranscriptText previousText in
  let next := normalizeTranscriptText nextText in
  isEmpty previous = false ->
  isEmpty next = false ->
  includes (toLowerCase next) (toLowerCase previous) = false ->
  includes (toLowerCase previous) (toLowerCase next) = false ->
  findWordOverlap (split " " previous) (split " " next) = 0 ->
  judgedRestart previous next ->
  Restart.mergeIncrementalTranscriptText previousText nextText isFinal = next /\
  Lib.mergeIncrementalTranscriptText previousText nextText isFinal
  = if isFinal && shouldReplaceWithFinal (split " " previous) (split " " next)
    then next
    else join " " (collapseDuplicateWords (split " " previous ++ split " " next)).
Proof.
  intros previous next Ep En Inp Ipn Hov Hre.
  assert (Hsw : forall a b : text, includes a b = false -> startsWith a b = false).
  { intros a b H. destruct (startsWith a b) eqn:E; [|reflexivity].
    destruct a; simpl in H; rewrite E in H; discriminate. }
  assert (Heq : eqb (toLowerCase previous) (toLowerCase next) = false).
  { unfold eqb. apply bool_decide_eq_false. intros Heq.
    rewrite Heq in Ipn. destruct (toLowerCase next); simpl in Ipn.
    - discriminate.
    - rewrite bool_decide_eq_true_2 in Ipn by reflexivity.
      assert (startsWith l l = true) as E by (apply startsWith_spec; exists []; symmetry; apply app_nil_r).
      rewrite E in Ipn. discriminate. }
  split.
  - unfold Restart.mergeIncrementalTranscriptText. fold previous next.
    rewrite Ep, En, Inp, Ipn, Hov, (Hsw _ _ Inp), (Hsw _ _ Ipn), Heq. simpl.
    apply looksLikeRestart_spec in Hre. rewrite Hre. reflexivity.
  - unfold Lib.mergeIncrementalTranscriptText. fold previous next.
    rewrite Ep, En, Hov, (Hsw _ _ Inp), (Hsw _ _ Ipn), Heq. reflexivity.
Qed.

(** The restart example of the specification, through the theorem, in both
    revisions. *)
Lemma merge_restart_example :
  judgedRestart (lit "I need your account number") (lit "I need your help please") /\
  Restart.mergeIncrementalTranscriptText
    (lit "I need your account number") (lit "I need your help please") false
  = lit "I need your help please" /\
  Lib.mergeIncrementalTranscriptText
    (lit "I need your account number") (lit "I need your help please") false
  = lit "I need your account number I need your help please".
Proof.
  assert (J : judgedRestart (lit "I need your account number") (lit "I need your help please")).
  { left. split; vm_compute; [lia | reflexivity]. }
  split; [exact J|].
  destruct (merge_restart_returns_next
              (lit "I need your account number") (lit "I need your help please") false)
    as [R L]; [vm_compute; reflexivity .. | exact J |].
  split; [exact R|]. rewrite L. vm_compute. reflexivity.
Defined.

(** [lib/transcript-merge.ts] has no restart rule: there the same fragments
    are concatenated. *)
Example Lib_merge_restart_example :
  Lib.mergeIncrementalTranscriptText
    (lit "I need your account number") (lit "I need your help please") false
  = lit "I need your account number I need your help please".
Proof. vm_compute. reflexivity. Qed.

(** Two more examples of the specification, in both revisions. *)
Example overlap_stitching :
  Lib.mergeIncrementalTranscriptText (lit "the quick brown") (lit "brown fox jumps") false
  = lit "the quick brown fox jumps" /\
  Restart.mergeIncrementalTranscriptText (lit "the quick brown") (lit "brown fox jumps") false
  = lit "the quick brown fox jumps".
Proof. split; vm_compute; reflexivity. Qed.

Example trailing_words :
  Lib.mergeIncrementalTranscriptText
    (lit "This is urgent and you must buy gift cards")
    (lit "This is urgent and you must buy gift cards now") true
  = lit "This is urgent and you must buy gift cards now" /\
  Restart.mergeIncrementalTranscriptText
    (lit "This is urgent and you must buy gift cards")
    (lit "This is urgent and you must buy gift cards now") true
  = lit "This is urgent and you must buy gift cards now".
Proof. split; vm_compute; reflexivity. Qed.




(** [lib/transcript-merge.ts] tests prefixes only: a fragment contained
    elsewhere is stitched on. *)
Example Lib_merge_containment_example :
  Lib.mergeIncrementalTranscriptText (lit "b") (lit "a b") false = lit "b a b".
Proof. vm_compute. reflexivity. Qed.

(** C8, counterexample.  An input that is not whitespace-normal is not
    returned as it is. *)
Lemma merge_with_empty_normalizes :
  Lib.mergeIncrementalTranscriptText (lit "") (lit " a") false <> lit " a" /\
  Restart.mergeIncrementalTranscriptText (lit "") (lit " a") false <> lit " a".
Proof. split; vm_compute; discriminate. Qed.

(** C8, amended.  Merging with the empty text, or a text with itself, gives
    the whitespace-normalised text (the text itself when it is already
    normalised), in both revisions and for either flag. *)
Theorem merge_identities (x : text) (isFinal : bool) :
  (Lib.mergeIncrementalTranscriptText [] x isFinal = normalizeTranscriptText x /\
   Lib.mergeIncrementalTranscriptText x [] isFinal = normalizeTranscriptText x /\
   Lib.mergeIncrementalTranscriptText x x isFinal = normalizeTranscriptText x) /\
  (Restart.mergeIncrementalTranscriptText [] x isFinal = normalizeTranscriptText x /\
   Restart.mergeIncrementalTranscriptText x [] isFinal = normalizeTranscriptText x /\
   Restart.mergeIncrementalTranscriptText x x isFinal = normalizeTranscriptText x).
Proof.
  unfold Lib.mergeIncrementalTranscriptText, Restart.mergeIncrementalTranscriptText.
  rewrite normalizeTranscriptText_nil, eqb_refl. simpl.
  destruct (isEmpty (normalizeTranscriptText x)) eqn:E.
  - apply isEmpty_true in E. rewrite E. tauto.
  - tauto.
Qed.

(** C9.  The result of [merge] is whitespace-normal, whatever the inputs and
    the flag, in both revisions: its only whitespace characters are single
    spaces standing alone, none of them at either end; and
    [normalizeTranscriptText] leaves it as it is. *)
Theorem merge_output_normalized (previousText nextText : text) (isFinal : bool) :
  (clean (Lib.mergeIncrementalTranscriptText previousText nextText isFinal) = true /\
   normalizeTranscriptText (Lib.mergeIncrementalTranscriptText previousText nextText isFinal)
   = Lib.mergeIncrementalTranscriptText previousText nextText isFinal) /\
  (clean (Restart.mergeIncrementalTranscriptText previousText nextText isFinal) = true /\
   normalizeTranscriptText
     (Restart.mergeIncrementalTranscriptText previousText nextText isFinal)
   = Restart.mergeIncrementalTranscriptText previousText nextText isFinal).
Proof.
  assert (Hc : forall s, clean s = true -> clean s = true /\ normalizeTranscriptText s = s)
    by (intros s H; split; [exact H | apply normalizeTranscriptText_clean, H]).
  apply (merge_returns previousText nextText isFinal
           (fun s => clean s = true /\ normalizeTranscriptText s = s)).
  - apply Hc, clean_normalizeTranscriptText.
  - apply Hc, clean_normalizeTranscriptText.
  - intros k Hp Hn. apply Hc, clean_stitched.
    + apply words_split; [apply clean_normalizeTranscriptText | exact Hp].
    + apply Forall_drop, words_split; [apply clean_normalizeTranscriptText | exact Hn].
Qed.

(** Fragments with whitespace at both ends and runs of blanks inside. *)
Example merge_output_normalized_example :
  Lib.mergeIncrementalTranscriptText (lit "  the   quick ") (lit " brown  fox  ") false
  = lit "the quick brown fox" /\
  Restart.mergeIncrementalTranscriptText (lit "  the   quick ") (lit " brown  fox  ") false
  = lit "the quick brown fox".
Proof. split; vm_compute; reflexivity. Qed.

End MergeClaims.

(** ** Webhook authenticator *)

Section WebhookFacts.
Import Webhook WebhookSpec.

Lemma append_assoc (a b c : string) : (a +:+ b) +:+ c = a +:+ (b +:+ c).
Proof.
  induction a as [|x a IH]; [reflexivity|].
  change (String x ((a +:+ b) +:+ c) = String x (a +:+ (b +:+ c))).
  rewrite IH. reflexivity.
Qed.

Lemma append_empty_r (a : string) : a +:+ "" = a.
Proof.
  induction a as [|x a IH]; [reflexivity|].
  change (String x (a +:+ "") = String x a). rewrite IH. reflexivity.
Qed.

Lemma utf8_app_inj c d (r1 r2 : list ascii) :
  utf8 c ++ r1 = utf8 d ++ r2 -> c = d /\ r1 = r2.
Proof.
  destruct c as [c0 c1 c2 c3 c4 c5 c6 []], d as [d0 d1 d2 d3 d4 d5 d6 []];
    simpl; intros H; split; congruence.
Qed.

Lemma flat_map_utf8_inj (a b : list ascii) :
  flat_map utf8 a = flat_map utf8 b -> a = b.
Proof.
  revert b. induction a as [|c a IH]; intros [|d b]; simpl; intros H.
  - reflexivity.
  - destruct d as [? ? ? ? ? ? ? []]; discriminate.
  - destruct c as [? ? ? ? ? ? ? []]; discriminate.
  - apply utf8_app_inj in H as [-> H]. rewrite (IH _ H). reflexivity.
Qed.

Lemma Buffer_from_inj (a b : string) : Buffer_from a = Buffer_from b -> a = b.
Proof.
  unfold Buffer_from. intros H%flat_map_utf8_inj.
  rewrite <- (string_of_list_ascii_of_string a), H.
  apply string_of_list_ascii_of_string.
Qed.

(** [safeEqual] never throws and decides equality of the two strings. *)
Lemma safeEqual_spec (a b : string) : safeEqual a b = Some (bool_decide (a = b)).
Proof.
  unfold safeEqual, timingSafeEqual.
  destruct (decide (a = b)) as [->|Hne].
  - rewrite !bool_decide_eq_true_2 by reflexivity. reflexivity.
  - rewrite (bool_decide_eq_false_2 (a = b)) by exact Hne.
    case_bool_decide as Hl; simpl; [|reflexivity].
    rewrite bool_decide_eq_false_2; [reflexivity|].
    intros H. apply Hne, Buffer_from_inj, H.
Qed.

Lemma some_spec {A} (test : A -> option bool) (f : A -> bool) (l : list A) :
  (forall x, test x = Some (f x)) -> some test l = Some (existsb f l).
Proof.
  intros H. induction l as [|x l IH]; simpl; [reflexivity|].
  rewrite H. destruct (f x); [reflexivity | exact IH].
Qed.

(** The check never throws: it is the disjunction, over the candidates, of
    string equality with the computed signature. *)
Lemma isValidTwilioSignature_spec
    (hmac_sha1_base64 : string -> string -> string)
    (authToken signature : string) (urlCandidates : list string)
    (bodyParams : TwilioWebhookParams) :
  isValidTwilioSignature hmac_sha1_base64 authToken signature urlCandidates bodyParams
  = Some (existsb
            (fun candidate =>
               bool_decide
                 (computeTwilioSignature hmac_sha1_base64 authToken candidate bodyParams
                  = signature))
            urlCandidates).
Proof.
  unfold isValidTwilioSignature. apply some_spec. intros candidate. apply safeEqual_spec.
Qed.

Lemma signaturePayload_fold (value : string -> string) (keys : list string) (acc : string) :
  fold_left (fun acc key => acc +:+ key +:+ value key) keys acc
  = acc +:+ serialize (map (fun key => (key, value key)) keys).
Proof.
  revert acc. induction keys as [|k keys IH]; intros acc; simpl.
  - symmetry. apply append_empty_r.
  - rewrite IH, !append_assoc. reflexivity.
Qed.

Lemma elem_of_sortedKeys (params : TwilioWebhookParams) (key : string) :
  key ∈ sortedKeys params <-> is_Some (params !! key).
Proof.
  unfold sortedKeys. rewrite merge_sort_Permutation.
  change (map fst (map_to_list params)) with ((map_to_list params).*1).
  rewrite list_elem_of_fmap. split.
  - intros [[k v] [-> H%elem_of_map_to_list]]. exists v. exact H.
  - intros [v H]. exists (key, v). split; [reflexivity | apply elem_of_map_to_list, H].
Qed.

Lemma NoDup_sortedKeys (params : TwilioWebhookParams) : NoDup (sortedKeys params).
Proof.
  unfold sortedKeys. rewrite merge_sort_Permutation. apply NoDup_fst_map_to_list.
Qed.

Lemma StronglySorted_sortedKeys (params : TwilioWebhookParams) :
  StronglySorted String.le (sortedKeys params).
Proof. apply StronglySorted_merge_sort; apply _. Qed.

End WebhookFacts.

Section WebhookClaims.
Import Webhook WebhookSpec.

(** C7.  The signed text is the candidate URL followed by the key/value
    pairs of the body in ascending key order; the check never throws, and
    it accepts exactly when the provided signature is the keyed hash of that
    text for at least one candidate. *)
Theorem signature_verification
    (hmac_sha1_base64 : string -> string -> string)
    (authToken signature : string) (urlCandidates : list string)
    (bodyParams : TwilioWebhookParams) :
  exists pairs : list (string * string),
    (forall key value, (key, value) ∈ pairs <-> bodyParams !! key = Some value) /\
    StronglySorted String.le pairs.*1 /\
    NoDup pairs.*1 /\
    (forall url,
       computeTwilioSignature hmac_sha1_base64 authToken url bodyParams
       = hmac_sha1_base64 authToken (url +:+ serialize pairs)) /\
    exists verdict : bool,
      isValidTwilioSignature hmac_sha1_base64 authToken signature urlCandidates bodyParams
      = Some verdict /\
      (verdict = true <->
       exists candidate,
         candidate ∈ urlCandidates /\
         signature = hmac_sha1_base64 authToken (candidate +:+ serialize pairs)).
Proof.
  set (value := fun key => default "undefined" (bodyParams !! key)).
  set (pairs := map (fun key => (key, value key)) (sortedKeys bodyParams)).
  assert (Hfst : pairs.*1 = sortedKeys bodyParams).
  { unfold pairs. generalize (sortedKeys bodyParams) as l.
    induction l as [|k l IH]; simpl; [reflexivity | f_equal; exact IH]. }
  assert (Hsig : forall url,
             computeTwilioSignature hmac_sha1_base64 authToken url bodyParams
             = hmac_sha1_base64 authToken (url +:+ serialize pairs)).
  { intros url. unfold computeTwilioSignature, signaturePayload.
    rewrite (signaturePayload_fold value). reflexivity. }
  exists pairs. repeat split.
  - unfold pairs. intros (k & [= -> ->] & Hk)%list_elem_of_fmap.
    apply elem_of_sortedKeys in Hk as [v Hv]. unfold value. rewrite Hv. reflexivity.
  - intros Hv. unfold pairs. apply list_elem_of_fmap. exists key. split.
    + unfold value. rewrite Hv. reflexivity.
    + apply elem_of_sortedKeys. exists value0. exact Hv.
  - rewrite Hfst. apply StronglySorted_sortedKeys.
  - rewrite Hfst. apply NoDup_sortedKeys.
  - exact Hsig.
  - eexists. split; [apply isValidTwilioSignature_spec|].
    rewrite existsb_exists. split.
    + intros (candidate & Hin & Heq). exists candidate.
      apply bool_decide_eq_true in Heq. rewrite <- Hsig.
      split; [apply list_elem_of_In, Hin | symmetry; exact Heq].
    + intros (candidate & Hin & Heq). exists candidate.
      split; [apply list_elem_of_In, Hin|].
      apply bool_decide_eq_true. rewrite Hsig. symmetry. exact Heq.
Qed.

End WebhookClaims.

(** ** Event normaliser *)

Section NormaliserClaims.
Import Webhook WebhookSpec.

Variable Number_ : string -> option Q.
Variable Date_parse : string -> option Z.
Variable JSON_parse : string -> option Json.
Variable sha1_hex : string -> string.

(** With a segment id, a source hint, a transcription session or a sequence
    number in the delivery, the hashed text does not depend on the timestamp. *)
Lemma sourceEventKey_with_identifier
    (callSid : string) (transcriptionSid sequenceId segmentSid sourceHint : option string)
    (timestamp timestamp' : Z) (speaker : TranscriptSpeaker) (text : string) :
  truthy segmentSid || truthy sourceHint || truthy transcriptionSid || truthy sequenceId
  = true ->
  sourceEventKey callSid transcriptionSid sequenceId segmentSid sourceHint
    timestamp speaker text
  = sourceEventKey callSid transcriptionSid sequenceId segmentSid sourceHint
      timestamp' speaker text.
Proof.
  unfold sourceEventKey, primaryId, orElse, sessionSequence. intros H.
  destruct (truthy segmentSid) eqn:E1.
  { destruct segmentSid; [reflexivity | discriminate]. }
  destruct (truthy sourceHint) eqn:E2.
  { destruct sourceHint; [reflexivity | discriminate]. }
  simpl in H.
  assert (T : forall a b : string, a <> "" -> truthy (Some (a +:+ b)) = true).
  { intros a b Ha. destruct a; [congruence | reflexivity]. }
  assert (N : forall o, truthy o = true -> default "" o <> "").
  { intros [s|]; simpl; [|discriminate]. intros Hs%negb_true_iff%bool_decide_eq_false.
    exact Hs. }
  destruct (truthy transcriptionSid) eqn:E3, (truthy sequenceId) eqn:E4;
    try discriminate.
  - rewrite (T _ _ (N _ E3)). reflexivity.
  - assert (truthy (Some (default "" transcriptionSid)) = true) as ->; [|reflexivity].
    destruct transcriptionSid; [exact E3 | discriminate].
  - assert (truthy (Some (default "" sequenceId)) = true) as ->; [|reflexivity].
    destruct sequenceId; [exact E4 | discriminate].
Qed.

(** So a delivery that carries one of these identifiers gets the same key
    whatever the clock reads. *)
Lemma sourceEventId_with_identifier
    (params : TwilioWebhookParams) (slugFromQuery : option string) (now now' : Z) :
  truthy (readString params ["TranscriptionSegmentSid"; "SegmentSid"]) ||
  truthy (sourceHint (parseTranscriptionData JSON_parse
                        (readString params ["TranscriptionData"]))) ||
  truthy (readString params ["TranscriptionSid"; "TranscriptionSessionSid"]) ||
  truthy (readString params ["SequenceId"; "ResultIndex"; "SegmentIndex"]) = true ->
  sourceEventId <$>
    transcript (parseTwilioWebhookEvent Number_ Date_parse JSON_parse sha1_hex
                  params slugFromQuery now)
  = sourceEventId <$>
      transcript (parseTwilioWebhookEvent Number_ Date_parse JSON_parse sha1_hex
                    params slugFromQuery now').
Proof.
  intros H. unfold parseTwilioWebhookEvent.
  destruct (negb _ || negb _); [reflexivity|].
  cbn [transcript sourceEventId fmap option_fmap option_map]. f_equal.
  unfold buildSourceEventId. f_equal.
  apply sourceEventKey_with_identifier, H.
Qed.

(** C4.  A delivery that carries only the call id and the text gets its
    timestamp from the clock, and the clock reading goes into the hashed
    text: the same delivery normalised at clock 1000 and at clock 2000 has
    two different preimages of its idempotency key. *)
Theorem sourceEventId_follows_clock :
  sourceEventId <$>
    transcript (parseTwilioWebhookEvent Number_ Date_parse JSON_parse sha1_hex
                  bareDelivery None 1000)
  = Some (sha1_hex "CA1|1000:unknown|hello") /\
  sourceEventId <$>
    transcript (parseTwilioWebhookEvent Number_ Date_parse JSON_parse sha1_hex
                  bareDelivery None 2000)
  = Some (sha1_hex "CA1|2000:unknown|hello").
Proof. split; vm_compute; reflexivity. Qed.

End NormaliserClaims.

(** ** Advice scheduler *)

Section SchedulerFacts.
Import Webhook Route RouteSpec.
Context {Advice Chunk : Type}.
Variable env : Env Advice Chunk.
Variable callSid : string.

Implicit Types w : World Advice Chunk.

Lemma current_mutate f w : current (mutate callSid f w) callSid = f (current w callSid).
Proof. unfold current, mutate. simpl. rewrite lookup_insert_eq. reflexivity. Qed.

Lemma mutate_mutate f g w :
  mutate callSid g (mutate callSid f w) = mutate callSid (fun s => g (f s)) w.
Proof.
  unfold mutate at 1. rewrite current_mutate. unfold mutate. simpl.
  rewrite insert_insert_eq. reflexivity.
Qed.




Lemma Drifts_refl w : Drifts env callSid w w [].
Proof. split; [lia|]. split; [tauto | symmetry; apply app_nil_r]. Qed.

Lemma Drifts_trans w1 w2 w3 issued issued' :
  Drifts env callSid w1 w2 issued -> Drifts env callSid w2 w3 issued' ->
  Drifts env callSid w1 w3 (issued ++ issued').
Proof.
  intros (Ht & Hp & Hc) (Ht' & Hp' & Hc').
  split; [lia|]. split.
  - intros H3. destruct (Hp' H3) as [H2|(t & Hr & Htr)].
    + destruct (Hp H2) as [H1|(t & Hr & Htr)]; [left; exact H1|].
      right. exists t. split; [lia | exact Htr].
    + right. exists t. split; [lia | exact Htr].
  - rewrite Hc', Hc, app_assoc. reflexivity.
Qed.






Lemma await_drifts {A} (call : Call Advice Chunk) (settle : nat -> Settled A) w r w' :
  await env call settle (triggerWhileRunning callSid) w = (r, w') ->
  Drifts env callSid w w' [(ticks w, call)] /\ ticks w' = S (ticks w) /\
  r = match settle (ticks w) with
      | Fulfilled a => Returned a
      | Rejected e => Threw e
      end.
Proof.
  unfold await, triggerWhileRunning. intros [= <- <-].
  split; [|split; [destruct (triggerAt env (ticks w)); reflexivity | reflexivity]].
  destruct (triggerAt env (ticks w)) eqn:T.
  - split; [simpl; lia|]. split; [|reflexivity].
    intros _. right. exists (ticks w). simpl. split; [lia | exact T].
  - split; [simpl; lia|]. split; [tauto | reflexivity].
Qed.










End SchedulerFacts.

Section SchedulerClaims.
Import Webhook Route RouteSpec.
Context {Advice Chunk : Type}.

(** C5.  A trigger that finds a run in flight only sets [pending] to true
    ([running] and [lastRunAt] stay as they were); a trigger that is neither
    forced nor 900 ms after the last run only reads the clock.  Neither
    issues any collaborator call, and the second leaves the run state of the
    call as it was. *)
Theorem trigger_while_running_or_too_early
    (env : Env Advice Chunk) (callSid : string) (fuel : nat) (force : bool)
    (w : World Advice Chunk) :
  let state := current w callSid in
  (running state = true ->
   runAdviceForCall env fuel callSid force w
   = (Returned tt,
      {| adviceRunState :=
           <[callSid := {| running := true; pending := true;
                           lastRunAt := lastRunAt state |}]> (adviceRunState w);
         ticks := ticks w;
         calls := calls w |}) /\
   pending (current (snd (runAdviceForCall env fuel callSid force w)) callSid) = true) /\
  (running state = false -> force = false ->
   (clock env (ticks w) - lastRunAt state < 900)%Z ->
   runAdviceForCall env fuel callSid force w
   = (Returned tt,
      {| adviceRunState := <[callSid := state]> (adviceRunState w);
         ticks := S (ticks w);
         calls := calls w |})).
Proof.
  intros state.
  unfold runAdviceForCall, bind, modify, getCurrent, ret, dateNow.
  rewrite current_mutate. fold state. split.
  - intros Hrun. rewrite Hrun, mutate_mutate. unfold mutate, setPending. cbn [fst snd].
    fold state. rewrite Hrun. split; [reflexivity|].
    unfold current. cbn [adviceRunState]. rewrite lookup_insert_eq. reflexivity.
  - intros -> -> Hlt. simpl.
    assert ((clock env (ticks w) - lastRunAt state <? ADVICE_MIN_INTERVAL_MS)%Z = true) as ->
      by (apply Z.ltb_lt; exact Hlt).
    reflexivity.
Qed.


End SchedulerClaims.

(** Both cases on sample worlds: a run in flight, and a run 600 ms ago. *)
Lemma trigger_while_running_or_too_early_sample :
  (Route.running (Route.current (RouteSpec.worldWith {["CA1" := RouteSpec.runningState]}) "CA1") = true /\
   Route.runAdviceForCall RouteSpec.quietEnv 3 "CA1" true (RouteSpec.worldWith {["CA1" := RouteSpec.runningState]})
   = (Route.Returned tt,
      {| Route.adviceRunState :=
           <["CA1" := {| Route.running := true; Route.pending := true;
                         Route.lastRunAt := 400 |}]> {["CA1" := RouteSpec.runningState]};
         Route.ticks := 0; Route.calls := [] |})) /\
  ((Route.clock RouteSpec.quietEnv 0 - Route.lastRunAt (Route.current (RouteSpec.worldWith {["CA1" := RouteSpec.recentState]}) "CA1") < 900)%Z /\
   Route.runAdviceForCall RouteSpec.quietEnv 3 "CA1" false (RouteSpec.worldWith {["CA1" := RouteSpec.recentState]})
   = (Route.Returned tt,
      {| Route.adviceRunState := <["CA1" := RouteSpec.recentState]> {["CA1" := RouteSpec.recentState]};
         Route.ticks := 1; Route.calls := [] |})).
Proof.
  split.
  - split; [reflexivity|].
    exact (proj1 (proj1 (trigger_while_running_or_too_early RouteSpec.quietEnv "CA1" 3 true
                           (RouteSpec.worldWith {["CA1" := RouteSpec.runningState]}))
                    eq_refl)).
  - assert (L : (Route.clock RouteSpec.quietEnv 0 -
                 Route.lastRunAt
                   (Route.current (RouteSpec.worldWith {["CA1" := RouteSpec.recentState]})
                      "CA1") < 900)%Z) by (vm_compute; reflexivity).
    split; [exact L|].
    exact (proj2 (trigger_while_running_or_too_early RouteSpec.quietEnv "CA1" 3 false
                    (RouteSpec.worldWith {["CA1" := RouteSpec.recentState]}))
             eq_refl eq_refl L).
Defined.


(** ** Webhook handler *)

Section HandlerFacts.
Import Webhook Route RouteSpec.
Context {Advice Chunk : Type}.
Variable normalizeSessionStatus : string -> SessionStatus.
Variable isTerminalStatus : SessionStatus -> bool.
Variable env : Env Advice Chunk.

Implicit Types w : World Advice Chunk.










(** *** The handler always answers *)

Section Ending.
Variable quietFrom fuel : nat.
Hypothesis quiet : forall t, quietFrom <= t -> triggerAt env t = false.









End Ending.

End HandlerFacts.

Section HandlerClaims.
Import Webhook Route RouteSpec.
Context {Advice Chunk : Type}.
Variable normalizeSessionStatus : string -> SessionStatus.
Variable isTerminalStatus : SessionStatus -> bool.
Variable env : Env Advice Chunk.
Variable Number_ : string -> option Q.
Variable Date_parse : string -> option Z.
Variable JSON_parse : string -> option Json.
Variable sha1_hex : string -> string.
Variable hmac_sha1_base64 : string -> string -> string.

Implicit Types w : World Advice Chunk.





End HandlerClaims.


(** The same status event with a working store is acknowledged. *)
Example status_event_is_acknowledged :
  RouteSpec.postUnvalidated RouteSpec.quietEnv RouteSpec.statusRequest
  = Route.Returned (Route.json 200 true None).
Proof. vm_compute. reflexivity. Qed.

(** * Further properties of the sources *)

(** ** Stripping a class of characters from both ends *)

Section StripFacts.
Import Js.

Lemma dropWhile_head p (s : text) :
  match dropWhile p s with
  | [] => True
  | c :: _ => p c = false
  end.
Proof.
  induction s as [|c r IH]; simpl; [exact I|].
  destruct (p c) eqn:E; [exact IH | exact E].
Qed.

Lemma dropWhile_fix p (s : text) :
  match s with [] => True | c :: _ => p c = false end -> dropWhile p s = s.
Proof. destruct s as [|c r]; simpl; [reflexivity|]. intros ->. reflexivity. Qed.

Lemma dropWhile_idempotent p (s : text) : dropWhile p (dropWhile p s) = dropWhile p s.
Proof. apply dropWhile_fix, dropWhile_head. Qed.

Lemma dropWhileEnd_idempotent p (s : text) :
  dropWhileEnd p (dropWhileEnd p s) = dropWhileEnd p s.
Proof. unfold dropWhileEnd. rewrite rev_involutive, dropWhile_idempotent. reflexivity. Qed.

Lemma dropWhileEnd_head p (s : text) :
  match s with [] => True | c :: _ => p c = false end ->
  match dropWhileEnd p s with [] => True | c :: _ => p c = false end.
Proof.
  destruct s as [|c r]; [intros _; exact I|]. intros Hc.
  rewrite dropWhileEnd_cons. destruct (dropWhileEnd p r); [rewrite Hc|]; exact Hc.
Qed.

(** What is left after stripping both ends is not stripped any further. *)
Lemma strip_fix p (s : text) :
  let stripped := dropWhileEnd p (dropWhile p s) in
  dropWhile p stripped = stripped /\ dropWhileEnd p stripped = stripped.
Proof.
  intros stripped. split.
  - apply dropWhile_fix, dropWhileEnd_head, dropWhile_head.
  - apply dropWhileEnd_idempotent.
Qed.

Lemma Forall_dropWhile (P : ascii -> Prop) p (s : text) :
  Forall P s -> Forall P (dropWhile p s).
Proof.
  induction 1 as [|c r Hc Hr IH]; simpl; [constructor|].
  destruct (p c); [exact IH | constructor; assumption].
Qed.

Lemma Forall_dropWhileEnd (P : ascii -> Prop) p (s : text) :
  Forall P s -> Forall P (dropWhileEnd p s).
Proof.
  intros H. unfold dropWhileEnd. apply Forall_rev, Forall_dropWhile, Forall_rev, H.
Qed.

Lemma lowerChar_idempotent c : lowerChar (lowerChar c) = lowerChar c.
Proof. destruct c as [[] [] [] [] [] [] [] []]; reflexivity. Qed.

Lemma toLowerCase_idempotent (s : text) : toLowerCase (toLowerCase s) = toLowerCase s.
Proof.
  unfold toLowerCase. rewrite map_map. apply map_ext. intros c. apply lowerChar_idempotent.
Qed.

Lemma toLowerCase_fix (s : text) :
  Forall (fun c => lowerChar c = c) s -> toLowerCase s = s.
Proof.
  induction 1 as [|c r Hc Hr IH]; [reflexivity|].
  change (lowerChar c :: toLowerCase r = c :: r). rewrite Hc, IH. reflexivity.
Qed.

Lemma toLowerCase_lowered (s : text) : Forall (fun c => lowerChar c = c) (toLowerCase s).
Proof.
  induction s as [|c r IH]; [constructor|].
  change (Forall (fun c => lowerChar c = c) (lowerChar c :: toLowerCase r)).
  constructor; [apply lowerChar_idempotent | exact IH].
Qed.

End StripFacts.

(** ** Tokens, overlap and duplicate collapsing *)

Section TokenFacts.
Import Js Merge MergeSpec MergeWords.

Lemma stripPunctuation_lowered (lowered : text) :
  Forall (fun c => lowerChar c = c) lowered ->
  toLowerCase (stripPunctuation lowered) = stripPunctuation lowered.
Proof.
  intros H. apply toLowerCase_fix, Forall_dropWhileEnd, Forall_dropWhile, H.
Qed.

Lemma stripPunctuation_idempotent (s : text) :
  stripPunctuation (stripPunctuation s) = stripPunctuation s.
Proof.
  unfold stripPunctuation.
  destruct (strip_fix notTokenChar s) as [H1 H2]. cbv zeta in H1, H2.
  rewrite H1. exact H2.
Qed.

Lemma normalizeToken_fix (value : text) :
  normalizeToken (normalizeToken value) = normalizeToken value.
Proof.
  unfold normalizeToken.
  pose proof (toLowerCase_lowered value) as Hl.
  destruct (isEmpty (stripPunctuation (toLowerCase value))) eqn:E.
  - rewrite toLowerCase_idempotent, E. reflexivity.
  - rewrite (stripPunctuation_lowered _ Hl), stripPunctuation_idempotent, E.
    reflexivity.
Qed.

Lemma normalizeToken_nil (value : text) : normalizeToken value = [] <-> value = [].
Proof.
  unfold normalizeToken.
  destruct (isEmpty (stripPunctuation (toLowerCase value))) eqn:E.
  - apply toLowerCase_nil.
  - apply isEmpty_false in E. split; [tauto|]. intros ->. destruct E. reflexivity.
Qed.

(** X1.  [normalizeToken] is idempotent, and only the empty word has the
    empty token. *)
Theorem normalizeToken_idempotent (value : text) :
  normalizeToken (normalizeToken value) = normalizeToken value /\
  (normalizeToken value = [] <-> value = []).
Proof. split; [apply normalizeToken_fix | apply normalizeToken_nil]. Qed.

Lemma overlapMatches_spec (previousWords nextWords : list text) (k : nat) :
  k <= length previousWords -> k <= length nextWords ->
  overlapMatches previousWords nextWords k = true <->
  map normalizeToken (skipn (length previousWords - k) previousWords)
  = map normalizeToken (firstn k nextWords) /\
  Forall (fun token => token <> []) (map normalizeToken (firstn k nextWords)).
Proof.
  intros Hp Hn. unfold overlapMatches. rewrite forallb_forall.
  set (tp := map normalizeToken (skipn (length previousWords - k) previousWords)).
  set (tn := map normalizeToken (firstn k nextWords)).
  assert (Lp : length tp = k) by (unfold tp; rewrite length_map, length_skipn; lia).
  assert (Ln : length tn = k) by (unfold tn; rewrite length_map, length_firstn; lia).
  assert (Np : forall i, i < k ->
            normalizeToken (nth (length previousWords - k + i) previousWords [])
            = nth i tp []).
  { intros i Hi. unfold tp.
    change (@nil ascii) with (normalizeToken []) at 2.
    rewrite map_nth, nth_skipn. reflexivity. }
  assert (Nn : forall i, i < k -> normalizeToken (nth i nextWords []) = nth i tn []).
  { intros i Hi. unfold tn.
    change (@nil ascii) with (normalizeToken []) at 2.
    rewrite map_nth, nth_firstn. apply Nat.ltb_lt in Hi. rewrite Hi. reflexivity. }
  split.
  - intros H. assert (Hi : forall i, i < k ->
                       nth i tp [] <> [] /\ nth i tn [] <> [] /\ nth i tp [] = nth i tn []).
    { intros i Hi. specialize (H i). rewrite in_seq in H. specialize (H ltac:(lia)).
      rewrite (Np i Hi), (Nn i Hi) in H.
      apply negb_true_iff in H. apply orb_false_iff in H as [H H3].
      apply orb_false_iff in H as [H1 H2].
      apply isEmpty_false in H1, H2. apply negb_false_iff in H3.
      apply bool_decide_eq_true in H3. auto. }
    split.
    + apply (nth_ext _ _ [] []); [lia|]. intros i Hlt. apply Hi. lia.
    + apply List.Forall_forall. intros token Hin.
      apply (In_nth _ _ []) in Hin as (i & Hlt & <-). apply Hi. lia.
  - intros [Heq Hne] i Hin. apply in_seq in Hin.
    rewrite (Np i ltac:(lia)), (Nn i ltac:(lia)), Heq.
    assert (nth i tn [] <> []) as Hi.
    { rewrite List.Forall_forall in Hne. apply Hne, nth_In. lia. }
    apply isEmpty_false in Hi. rewrite Hi. simpl.
    unfold eqb. rewrite bool_decide_eq_true_2 by reflexivity. reflexivity.
Qed.

Lemma findWordOverlapFrom_spec (previousWords nextWords : list text) (start : nat) :
  start <= length previousWords -> start <= length nextWords ->
  let k := findWordOverlapFrom previousWords nextWords start in
  k <= start /\ overlapAt previousWords nextWords k /\
  forall j, k < j <= start -> ~ overlapAt previousWords nextWords j.
Proof.
  induction start as [|start IH]; intros Hp Hn.
  - simpl. split; [lia|]. split; [|lia].
    unfold overlapAt. rewrite Nat.sub_0_r, skipn_all. simpl.
    repeat split; try lia. constructor.
  - cbn [findWordOverlapFrom].
    destruct (overlapMatches previousWords nextWords (S start)) eqn:E.
    + split; [lia|]. split; [|lia].
      apply overlapMatches_spec in E; [|lia..]. unfold overlapAt. tauto.
    + destruct (IH ltac:(lia) ltac:(lia)) as (H1 & H2 & H3).
      split; [lia|]. split; [exact H2|]. intros j Hj (_ & _ & Ho).
      destruct (Nat.eq_dec j (S start)) as [->|Hne].
      * apply overlapMatches_spec in Ho; [congruence | lia..].
      * apply (H3 j); [lia|]. unfold overlapAt. repeat split; try lia; tauto.
Qed.

(** X2.  [findWordOverlap] returns the largest [k] for which the last [k]
    words of the previous text and the first [k] words of the next one have
    the same non-empty tokens ([0] when there is none). *)
Theorem findWordOverlap_largest (previousWords nextWords : list text) :
  let k := findWordOverlap previousWords nextWords in
  overlapAt previousWords nextWords k /\
  forall j, k < j -> ~ overlapAt previousWords nextWords j.
Proof.
  intros k.
  destruct (findWordOverlapFrom_spec previousWords nextWords
              (Nat.min (length previousWords) (length nextWords)))
    as (H1 & H2 & H3); [lia..|].
  split; [exact H2|]. intros j Hj Ho.
  apply (H3 j); [|exact Ho]. destruct Ho as (? & ? & _).
  unfold k, findWordOverlap in Hj. lia.
Qed.

Lemma collapseFrom_sublist token (words : list text) :
  collapseFrom token words `sublist_of` words.
Proof.
  revert token. induction words as [|w ws IH]; intros token; simpl.
  - constructor.
  - destruct (negb _ && _); [apply sublist_cons | apply sublist_skip]; apply IH.
Qed.

Lemma collapseFrom_distinct token (words : list text) :
  distinctFrom token (collapseFrom token words).
Proof.
  revert token. induction words as [|w ws IH]; intros token; simpl; [exact I|].
  destruct (negb (isEmpty (normalizeToken w)) && eqb (normalizeToken w) token) eqn:E.
  - apply IH.
  - simpl. split; [|apply IH]. intros Heq.
    apply andb_false_iff in E as [E|E].
    + apply negb_false_iff, isEmpty_true in E. exact E.
    + apply bool_decide_eq_false in E. contradiction.
Qed.

Lemma collapseFrom_fix token (words : list text) :
  distinctFrom token words -> collapseFrom token words = words.
Proof.
  revert token. induction words as [|w ws IH]; intros token; simpl; [reflexivity|].
  intros [Hw Hws].
  destruct (negb (isEmpty (normalizeToken w)) && eqb (normalizeToken w) token) eqn:E.
  - apply andb_true_iff in E as [E1 E2]. apply bool_decide_eq_true in E2.
    apply negb_true_iff, isEmpty_false in E1. destruct (E1 (Hw E2)).
  - rewrite (IH _ Hws). reflexivity.
Qed.

Lemma distinctFrom_lookup token (words : list text) (i : nat) (w1 w2 : text) :
  distinctFrom token words ->
  words !! i = Some w1 -> words !! S i = Some w2 ->
  normalizeToken w2 = normalizeToken w1 -> w2 = [].
Proof.
  revert token i. induction words as [|w ws IH]; intros token i Hd H1 H2 Heq;
    [discriminate|].
  destruct Hd as [_ Hd]. destruct i as [|i].
  - injection H1 as ->. destruct ws as [|w' ws]; [discriminate|].
    injection H2 as ->. destruct Hd as [Hd _]. apply normalizeToken_nil, Hd, Heq.
  - apply (IH _ i Hd H1 H2 Heq).
Qed.

(** X3.  [collapseDuplicateWords] only drops words: its result is a
    sub-sequence of the input that keeps the first word, and collapsing
    again changes nothing. *)
Theorem collapseDuplicateWords_sublist (words : list text) :
  collapseDuplicateWords words `sublist_of` words /\
  head (collapseDuplicateWords words) = head words /\
  collapseDuplicateWords (collapseDuplicateWords words) = collapseDuplicateWords words.
Proof.
  unfold collapseDuplicateWords. split; [apply collapseFrom_sublist|]. split.
  - destruct words as [|w ws]; [reflexivity|]. simpl.
    destruct (negb (isEmpty (normalizeToken w)) && eqb (normalizeToken w) []) eqn:E;
      [|reflexivity].
    apply andb_true_iff in E as [E1 E2]. apply bool_decide_eq_true in E2.
    rewrite E2 in E1. discriminate.
  - apply collapseFrom_fix, collapseFrom_distinct.
Qed.

(** X4.  In the result of [collapseDuplicateWords] no word has the token of
    the word before it, unless both are empty words. *)
Theorem collapseDuplicateWords_no_repeat (words : list text) (i : nat) (w1 w2 : text) :
  collapseDuplicateWords words !! i = Some w1 ->
  collapseDuplicateWords words !! S i = Some w2 ->
  normalizeToken w2 = normalizeToken w1 ->
  w1 = [] /\ w2 = [].
Proof.
  intros H1 H2 Heq.
  assert (E2 : w2 = [])
    by exact (distinctFrom_lookup [] (collapseDuplicateWords words) i w1 w2
                (collapseFrom_distinct [] words) H1 H2 Heq).
  split; [|exact E2]. subst w2. apply normalizeToken_nil. symmetry. exact Heq.
Qed.

Lemma collapseDuplicateWords_no_repeat_sample :
  let words := [lit "the"; lit "The"; lit "the,"; lit "cat"] in
  collapseDuplicateWords words !! 0 = Some (lit "the") /\
  collapseDuplicateWords words !! 1 = Some (lit "cat") /\
  (normalizeToken (lit "cat") = normalizeToken (lit "the") -> lit "the" = [] /\ lit "cat" = []).
Proof.
  intros words. split; [reflexivity|]. split; [reflexivity|].
  apply (collapseDuplicateWords_no_repeat words 0); reflexivity.
Defined.

Lemma countPrefixTokenMatches_bounds (previousTokens nextTokens : list text) :
  Restart.countPrefixTokenMatches previousTokens nextTokens <= length previousTokens /\
  Restart.countPrefixTokenMatches previousTokens nextTokens <= length nextTokens.
Proof.
  revert nextTokens. induction previousTokens as [|p ps IH]; intros [|n ns]; simpl;
    try lia.
  destruct (eqb p n); simpl; [|lia]. destruct (IH ns). lia.
Qed.

(** X5.  [countPrefixTokenMatches] is the length of the longest common
    prefix of the two token lists: the lists agree before that position and,
    where both go on, differ at it. *)
Theorem countPrefixTokenMatches_common_prefix (previousTokens nextTokens : list text) :
  let k := Restart.countPrefixTokenMatches previousTokens nextTokens in
  firstn k previousTokens = firstn k nextTokens /\
  length (firstn k previousTokens) = k /\
  forall p n, previousTokens !! k = Some p -> nextTokens !! k = Some n -> p <> n.
Proof.
  revert nextTokens. induction previousTokens as [|p ps IH]; intros [|n ns]; simpl;
    try (repeat split; discriminate).
  unfold eqb. case_bool_decide as E; simpl.
  - subst n. destruct (IH ns) as (H1 & H2 & H3). cbv zeta in H1, H2, H3.
    rewrite H1 at 1. rewrite <- H1, H2. repeat split. exact H3.
  - repeat split. intros p' n' [= <-] [= <-]. exact E.
Qed.

(** X6.  Every token of [tokenize] is non-empty and is its own token; a
    whitespace-normalised, non-empty text has one token per word. *)
Theorem tokenize_tokens (value : text) :
  Forall (fun token => token <> [] /\ normalizeToken token = token)
    (Restart.tokenize value) /\
  (value <> [] -> normalizeTranscriptText value = value ->
   length (Restart.tokenize value) = length (split " " value)).
Proof.
  unfold Restart.tokenize. split.
  - apply List.Forall_forall. intros token Hin. apply filter_In in Hin as [Hin Hne].
    apply negb_true_iff, isEmpty_false in Hne. split; [exact Hne|].
    apply in_map_iff in Hin as (w & <- & _). apply normalizeToken_fix.
  - intros Hne Hn.
    assert (Hw : Forall (fun w => isWord w = true) (split " " value)).
    { apply words_split; [|exact Hne]. rewrite <- Hn. apply clean_normalizeTranscriptText. }
    induction Hw as [|w ws Hw Hws IH]; [reflexivity|]. simpl.
    apply isWord_inv in Hw as [Hw _]. apply isEmpty_false in Hw.
    assert (isEmpty (normalizeToken w) = false) as ->.
    { apply isEmpty_false. rewrite normalizeToken_nil. exact Hw. }
    simpl. rewrite IH. reflexivity.
Qed.

Lemma tokenize_tokens_sample :
  (lit "Hello, world!" <> [] /\
   normalizeTranscriptText (lit "Hello, world!") = lit "Hello, world!") /\
  length (Restart.tokenize (lit "Hello, world!")) = length (split " " (lit "Hello, world!")).
Proof.
  assert (H : lit "Hello, world!" <> [] /\
              normalizeTranscriptText (lit "Hello, world!") = lit "Hello, world!")
    by (split; [discriminate | reflexivity]).
  split; [exact H|].
  apply (proj2 (tokenize_tokens (lit "Hello, world!"))); apply H.
Defined.

End TokenFacts.

(** ** More on normalisation and on the merge *)

Section MergeMore.
Import Js Merge MergeSpec MergeWords.

Lemma forallb_rev (p : ascii -> bool) (s : text) : forallb p (rev s) = forallb p s.
Proof.
  induction s as [|c r IH]; [reflexivity|]. simpl.
  rewrite forallb_app, IH. simpl. rewrite andb_true_r. apply andb_comm.
Qed.

Lemma dropWhile_nil p (s : text) : dropWhile p s = [] <-> forallb p s = true.
Proof.
  split; [|apply dropWhile_all]. intros H.
  destruct (forallb p s) eqn:E; [reflexivity|]. destruct (dropWhile_some _ _ E H).
Qed.

Lemma dropWhileEnd_nil p (s : text) : dropWhileEnd p s = [] <-> forallb p s = true.
Proof.
  unfold dropWhileEnd. rewrite <- forallb_rev, <- dropWhile_nil.
  split; [|intros ->; reflexivity].
  intros H. apply (f_equal (@rev ascii)) in H. rewrite rev_involutive in H. exact H.
Qed.

Lemma trim_nil (s : text) : trim s = [] <-> forallb isWhiteSpace s = true.
Proof.
  unfold trim. rewrite dropWhileEnd_nil. split.
  - intros H. apply dropWhile_nil.
    pose proof (dropWhile_head isWhiteSpace s) as Hh.
    destruct (dropWhile isWhiteSpace s) as [|c r]; [reflexivity|].
    simpl in H. rewrite Hh in H. discriminate.
  - intros H. rewrite (dropWhile_all _ _ H). reflexivity.
Qed.

Lemma forallb_replaceWhiteSpaceRuns (x : text) b :
  forallb isWhiteSpace (replaceWhiteSpaceRuns b x) = forallb isWhiteSpace x.
Proof.
  revert b. induction x as [|c r IH]; intros b; simpl; [reflexivity|].
  destruct (isWhiteSpace c) eqn:E.
  - destruct b; simpl; apply IH.
  - simpl. rewrite E. reflexivity.
Qed.

(** X7.  [normalizeTranscriptText] is idempotent, and its result is empty
    exactly when the text holds nothing but whitespace. *)
Theorem normalizeTranscriptText_blank (value : text) :
  normalizeTranscriptText (normalizeTranscriptText value) = normalizeTranscriptText value /\
  (normalizeTranscriptText value = [] <-> forallb isWhiteSpace value = true).
Proof.
  split; [apply normalizeTranscriptText_idempotent|].
  unfold normalizeTranscriptText. rewrite trim_nil, forallb_replaceWhiteSpaceRuns.
  reflexivity.
Qed.

(** The return paths of the merge, in both revisions. *)
Lemma merge_cases (previousText nextText : text) (isFinal : bool) :
  let previous := normalizeTranscriptText previousText in
  let next := normalizeTranscriptText nextText in
  forall P : text -> Prop,
    (previous = [] -> P next) ->
    (previous <> [] -> P previous) ->
    (previous <> [] -> next <> [] -> P next) ->
    (forall k, previous <> [] -> next <> [] ->
       P (join " " (collapseDuplicateWords
                      (split " " previous ++ skipn k (split " " next))))) ->
    P (Lib.mergeIncrementalTranscriptText previousText nextText isFinal) /\
    P (Restart.mergeIncrementalTranscriptText previousText nextText isFinal).
Proof.
  intros previous next P H1 H2 H3 H4.
  unfold Lib.mergeIncrementalTranscriptText, Restart.mergeIncrementalTranscriptText.
  fold previous next.
  destruct (isEmpty previous) eqn:Ep.
  { apply isEmpty_true in Ep. auto. }
  apply isEmpty_false in Ep.
  destruct (isEmpty next) eqn:En; [auto|].
  apply isEmpty_false in En.
  specialize (H2 Ep). specialize (H3 Ep En). specialize (fun k => H4 k Ep En).
  pose proof (H4 0) as H40. simpl in H40.
  split; repeat (match goal with |- context [if ?b then _ else _] => destruct b end);
    auto.
Qed.

Lemma split_word (w : text) : noWhiteSpace w = true -> split " " w = [w].
Proof.
  induction w as [|c w IH]; simpl; [reflexivity|].
  rewrite andb_true_iff, negb_true_iff. intros [E H].
  rewrite bool_decide_eq_false_2 by (intros ->; discriminate).
  rewrite (IH H). reflexivity.
Qed.

Lemma split_word_app (w s : text) :
  noWhiteSpace w = true -> split " " (w ++ " "%char :: s) = w :: split " " s.
Proof.
  induction w as [|c w IH]; simpl.
  - intros _. reflexivity.
  - rewrite andb_true_iff, negb_true_iff. intros [E H].
    rewrite bool_decide_eq_false_2 by (intros ->; discriminate).
    rewrite (IH H). reflexivity.
Qed.

(** Splitting undoes joining, for words. *)
Lemma split_join (ws : list text) :
  Forall (fun w => isWord w = true) ws -> ws <> [] -> split " " (join " " ws) = ws.
Proof.
  induction 1 as [|w ws Hw Hws IH]; [congruence|]. intros _.
  apply isWord_inv in Hw as [_ Hno]. destruct ws as [|w' ws].
  - simpl. apply split_word, Hno.
  - rewrite join_cons2, (split_word_app _ _ Hno), IH; [reflexivity | discriminate].
Qed.

Lemma collapseDuplicateWords_nonempty (w : text) (ws : list text) :
  isWord w = true -> collapseDuplicateWords (w :: ws) <> [].
Proof.
  intros Hw. unfold collapseDuplicateWords. simpl.
  destruct (negb _ && eqb _ []) eqn:E; [|discriminate].
  apply andb_true_iff in E as [E1 E2]. apply bool_decide_eq_true in E2.
  rewrite E2 in E1. discriminate.
Qed.

Lemma stitched_words (previous next : text) (k : nat) :
  clean previous = true -> clean next = true -> previous <> [] -> next <> [] ->
  let stitched :=
    collapseDuplicateWords (split " " previous ++ skipn k (split " " next)) in
  Forall (fun w => isWord w = true) stitched /\ stitched <> [] /\
  forall w, In w stitched -> In w (split " " previous) \/ In w (split " " next).
Proof.
  intros Cp Cn Np Nn stitched.
  pose proof (words_split _ Cp Np) as Wp. pose proof (words_split _ Cn Nn) as Wn.
  split; [|split].
  - apply words_collapseFrom, Forall_app. split; [exact Wp | apply Forall_drop, Wn].
  - unfold stitched. destruct (split " " previous) as [|w ws] eqn:E.
    + destruct previous; simpl in E; [congruence|].
      destruct (bool_decide _); [discriminate|]. destruct (split " " previous); discriminate.
    + inversion Wp; subst. apply collapseDuplicateWords_nonempty. assumption.
  - intros w Hin.
    pose proof (collapseFrom_sublist [] (split " " previous ++ skipn k (split " " next)))
      as Hs.
    apply list_elem_of_In in Hin. apply (fun H => elem_of_sublist _ _ _ H Hs) in Hin.
    apply list_elem_of_In, in_app_iff in Hin as [Hin|Hin]; [left; exact Hin|].
    right. rewrite <- (firstn_skipn k (split " " next)). apply in_app_iff. right. exact Hin.
Qed.

(** X8.  The merge returns the empty text only when both fragments are
    blank; in both revisions and for either flag. *)
Theorem merge_empty_only_for_blank (previousText nextText : text) (isFinal : bool) :
  (Lib.mergeIncrementalTranscriptText previousText nextText isFinal = [] <->
   normalizeTranscriptText previousText = [] /\ normalizeTranscriptText nextText = []) /\
  (Restart.mergeIncrementalTranscriptText previousText nextText isFinal = [] <->
   normalizeTranscriptText previousText = [] /\ normalizeTranscriptText nextText = []).
Proof.
  apply (merge_cases previousText nextText isFinal
           (fun result =>
              result = [] <->
              normalizeTranscriptText previousText = [] /\
              normalizeTranscriptText nextText = [])).
  - intros ->. tauto.
  - tauto.
  - tauto.
  - intros k Hp Hn.
    destruct (stitched_words _ _ k (clean_normalizeTranscriptText previousText)
                (clean_normalizeTranscriptText nextText) Hp Hn) as (Hw & Hne & _).
    split; [|tauto]. intros Hj. exfalso.
    destruct (collapseDuplicateWords _) as [|w ws]; [congruence|].
    inversion Hw; subst. apply isWord_inv in H1 as [H1 _]. apply isEmpty_false in H1.
    apply (join_nonempty w ws H1 Hj).
Qed.

(** X9.  The merge invents no text: every word of its result is a word of
    the normalised previous fragment or of the normalised next one. *)
Theorem merge_words_from_inputs (previousText nextText : text) (isFinal : bool) (w : text) :
  let previous := normalizeTranscriptText previousText in
  let next := normalizeTranscriptText nextText in
  (In w (split " " (Lib.mergeIncrementalTranscriptText previousText nextText isFinal)) ->
   In w (split " " previous) \/ In w (split " " next)) /\
  (In w (split " " (Restart.mergeIncrementalTranscriptText previousText nextText isFinal)) ->
   In w (split " " previous) \/ In w (split " " next)).
Proof.
  intros previous next.
  apply (merge_cases previousText nextText isFinal
           (fun result =>
              In w (split " " result) ->
              In w (split " " previous) \/ In w (split " " next))); try tauto.
  intros k Hp Hn.
  destruct (stitched_words _ _ k (clean_normalizeTranscriptText previousText)
              (clean_normalizeTranscriptText nextText) Hp Hn) as (Hw & Hne & Hin).
  rewrite (split_join _ Hw Hne). apply Hin.
Qed.

Lemma merge_words_from_inputs_sample :
  In (lit "fox")
    (split " " (Restart.mergeIncrementalTranscriptText
                  (lit "the quick brown") (lit "brown fox jumps") false)) /\
  (In (lit "fox") (split " " (normalizeTranscriptText (lit "the quick brown"))) \/
   In (lit "fox") (split " " (normalizeTranscriptText (lit "brown fox jumps")))).
Proof.
  assert (H : In (lit "fox")
                (split " " (Restart.mergeIncrementalTranscriptText
                              (lit "the quick brown") (lit "brown fox jumps") false)))
    by (vm_compute; tauto).
  split; [exact H|].
  exact (proj2 (merge_words_from_inputs (lit "the quick brown") (lit "brown fox jumps")
                  false (lit "fox")) H).
Defined.

Lemma startsWith_both (a b : text) :
  startsWith a b = true -> startsWith b a = true -> a = b.
Proof.
  intros [x Hx]%startsWith_spec [y Hy]%startsWith_spec.
  apply Substring_antisym; [exists [], y | exists [], x]; assumption.
Qed.

(** X10.  In [lib/transcript-merge.ts]: when the two normalised texts differ
    beyond letter case, a next fragment that extends the previous one
    replaces it, and a next fragment that the previous one extends is
    ignored. *)
Theorem Lib_merge_prefix (previousText nextText : text) (isFinal : bool) :
  let previous := normalizeTranscriptText previousText in
  let next := normalizeTranscriptText nextText in
  toLowerCase previous <> toLowerCase next ->
  (startsWith (toLowerCase next) (toLowerCase previous) = true ->
   Lib.mergeIncrementalTranscriptText previousText nextText isFinal = next) /\
  (startsWith (toLowerCase previous) (toLowerCase next) = true ->
   Lib.mergeIncrementalTranscriptText previousText nextText isFinal = previous).
Proof.
  intros previous next Hne.
  unfold Lib.mergeIncrementalTranscriptText. fold previous next.
  assert (Heq : eqb (toLowerCase previous) (toLowerCase next) = false)
    by (apply bool_decide_eq_false; exact Hne).
  split; intros Hs.
  - destruct (isEmpty previous) eqn:Ep; [reflexivity|].
    destruct (isEmpty next) eqn:En.
    + apply isEmpty_true in En. rewrite En in Hs. simpl in Hs.
      destruct (toLowerCase previous) eqn:El; [|discriminate].
      apply (proj1 (toLowerCase_nil _)) in El. apply isEmpty_false in Ep. contradiction.
    + rewrite Heq, Hs. reflexivity.
  - destruct (isEmpty previous) eqn:Ep.
    + apply isEmpty_true in Ep. exfalso. apply Hne. rewrite Ep in *. simpl in Hs.
      destruct (toLowerCase next); [reflexivity | discriminate].
    + destruct (isEmpty next) eqn:En; [reflexivity|].
      rewrite Heq, Hs.
      destruct (startsWith (toLowerCase next) (toLowerCase previous)) eqn:E; [|reflexivity].
      destruct Hne. symmetry. apply startsWith_both; assumption.
Qed.

Lemma Lib_merge_prefix_sample :
  toLowerCase (normalizeTranscriptText (lit "I need")) <>
    toLowerCase (normalizeTranscriptText (lit "i need  your help")) /\
  Lib.mergeIncrementalTranscriptText (lit "I need") (lit "i need  your help") false
  = lit "i need your help" /\
  Lib.mergeIncrementalTranscriptText (lit "i need  your help") (lit "I need") true
  = lit "i need your help".
Proof.
  assert (N : toLowerCase (normalizeTranscriptText (lit "I need")) <>
              toLowerCase (normalizeTranscriptText (lit "i need  your help")))
    by (vm_compute; discriminate).
  split; [exact N|]. split.
  - apply (Lib_merge_prefix (lit "I need") (lit "i need  your help") false N).
    vm_compute. reflexivity.
  - apply (Lib_merge_prefix (lit "i need  your help") (lit "I need") true);
      [intros E; apply N; symmetry; exact E | vm_compute; reflexivity].
Defined.

(** X11.  The two revisions of the merge give the same result whenever
    neither lower-cased normalised text contains the other and [next] does
    not look like a restart of [previous]. *)
Theorem revisions_agree (previousText nextText : text) (isFinal : bool) :
  let previous := normalizeTranscriptText previousText in
  let next := normalizeTranscriptText nextText in
  includes (toLowerCase next) (toLowerCase previous) = false ->
  includes (toLowerCase previous) (toLowerCase next) = false ->
  Restart.looksLikeRestart previous next = false ->
  Lib.mergeIncrementalTranscriptText previousText nextText isFinal
  = Restart.mergeIncrementalTranscriptText previousText nextText isFinal.
Proof.
  intros previous next Inp Ipn Hre.
  unfold Lib.mergeIncrementalTranscriptText, Restart.mergeIncrementalTranscriptText.
  fold previous next. rewrite Inp, Ipn, Hre.
  assert (Hsw : forall a b : text, includes a b = false -> startsWith a b = false).
  { intros a b H. destruct (startsWith a b) eqn:E; [|reflexivity].
    destruct a; simpl in H; rewrite E in H; discriminate. }
  rewrite (Hsw _ _ Inp), (Hsw _ _ Ipn). reflexivity.
Qed.

Lemma revisions_agree_sample :
  Lib.mergeIncrementalTranscriptText (lit "send the code") (lit "right now please") true
  = Restart.mergeIncrementalTranscriptText (lit "send the code") (lit "right now please") true.
Proof.
  apply (revisions_agree (lit "send the code") (lit "right now please") true);
    vm_compute; reflexivity.
Defined.

End MergeMore.

(** ** More on the event normaliser and the authenticator *)

Section WebhookMore.
Import Webhook WebhookSpec.

Lemma trim_idempotent (s : string) : trim (trim s) = trim s.
Proof.
  unfold trim, onString. rewrite list_ascii_of_string_of_list_ascii. f_equal.
  unfold Js.trim.
  destruct (strip_fix Js.isWhiteSpace (list_ascii_of_string s)) as [H1 H2].
  cbv zeta in H1, H2. rewrite H1. exact H2.
Qed.

Lemma toLowerCase_string_idempotent (s : string) :
  toLowerCase (toLowerCase s) = toLowerCase s.
Proof.
  unfold toLowerCase, onString.
  rewrite list_ascii_of_string_of_list_ascii, toLowerCase_idempotent. reflexivity.
Qed.

Lemma toLowerCase_string_empty (s : string) : toLowerCase s = "" <-> s = "".
Proof.
  destruct s as [|c s]; [split; reflexivity|]. split; discriminate.
Qed.

Lemma truthy_Some (s : string) : truthy (Some s) = true <-> s <> "".
Proof.
  simpl. rewrite negb_true_iff, bool_decide_eq_false. reflexivity.
Qed.

Lemma readString_cases (params : TwilioWebhookParams) (keys : list string) :
  match readString params keys with
  | Some s =>
      s <> "" /\ trim s = s /\
      exists before key after value,
        keys = before ++ key :: after /\ params !! key = Some value /\
        s = trim value /\ readString params before = None
  | None => forall key value, key ∈ keys -> params !! key = Some value -> trim value = ""
  end.
Proof.
  induction keys as [|key keys IH]; simpl.
  - intros key value Hin. inversion Hin.
  - assert (Skip : (forall value, params !! key = Some value -> trim value = "") ->
             match readString params keys with
             | Some s =>
                 s <> "" /\ trim s = s /\
                 exists before key' after value,
                   key :: keys = before ++ key' :: after /\ params !! key' = Some value /\
                   s = trim value /\ readString params before = None
             | None =>
                 forall key' value, key' ∈ key :: keys -> params !! key' = Some value ->
                   trim value = ""
             end).
    { intros Hblank. destruct (readString params keys) as [s|] eqn:E.
      - destruct IH as (H1 & H2 & before & key' & after & value & -> & H3 & H4 & H5).
        split; [exact H1|]. split; [exact H2|].
        exists (key :: before), key', after, value. repeat split; auto.
        simpl. destruct (params !! key) as [v|] eqn:Ek; [|exact H5].
        rewrite (Hblank v eq_refl). rewrite bool_decide_eq_true_2 by reflexivity. exact H5.
      - intros key' value [->|Hin]%elem_of_cons; [apply Hblank | apply IH, Hin]. }
    destruct (params !! key) as [value|] eqn:Ek; [|apply Skip; discriminate].
    case_bool_decide as Hb.
    + apply Skip. intros v [= <-]. exact Hb.
    + split; [exact Hb|]. split; [apply trim_idempotent|].
      exists [], key, keys, value. repeat split. exact Ek.
Qed.

(** X12.  [readString] answers with the trimmed value of the first listed
    key whose value is not blank, never with an empty or untrimmed string,
    and with [null] only when every listed key is absent or blank. *)
Theorem readString_first_nonblank (params : TwilioWebhookParams) (keys : list string) :
  (forall s,
     readString params keys = Some s ->
     s <> "" /\ trim s = s /\
     exists before key after value,
       keys = before ++ key :: after /\ params !! key = Some value /\
       s = trim value /\ readString params before = None) /\
  (readString params keys = None <->
   forall key value, key ∈ keys -> params !! key = Some value -> trim value = "").
Proof.
  pose proof (readString_cases params keys) as H.
  destruct (readString params keys) as [s|].
  - split; [intros s' [= <-]; exact H|]. split; [discriminate|].
    intros Hall. exfalso.
    destruct H as (H1 & _ & before & key & after & value & -> & H3 & H4 & _).
    apply H1. rewrite H4. apply (Hall key value); [|exact H3].
    apply elem_of_app. right. apply elem_of_cons. left. reflexivity.
  - split; [discriminate|]. split; [intros _; exact H | reflexivity].
Qed.

Lemma readString_truthy (params : TwilioWebhookParams) (keys : list string) :
  truthy (readString params keys) = true <-> readString params keys <> None.
Proof.
  pose proof (readString_cases params keys) as H.
  destruct (readString params keys) as [s|]; simpl.
  - destruct H as [H _]. rewrite negb_true_iff, bool_decide_eq_false. split; [discriminate|].
    intros _. exact H.
  - split; [discriminate | congruence].
Qed.

Lemma readStringFromFields_cases (fields : JsonRecord) (keys : list string) :
  match readStringFromFields fields keys with
  | Some s => s <> "" /\ trim s = s
  | None => True
  end.
Proof.
  induction keys as [|key keys IH]; simpl; [exact I|].
  destruct (field key fields) as [[| | |value| |]|]; try exact IH.
  case_bool_decide as Hb; [exact IH|]. split; [exact Hb | apply trim_idempotent].
Qed.

Lemma readStringFromRecord_cases (record : option JsonRecord) (keys : list string) :
  match readStringFromRecord record keys with
  | Some s => s <> "" /\ trim s = s
  | None => True
  end.
Proof.
  destruct record as [fields|]; [apply readStringFromFields_cases | exact I].
Qed.

Lemma orElse_cases (P : string -> Prop) (a b : option string) :
  (forall s, a = Some s -> s <> "" /\ P s) -> (forall s, b = Some s -> s <> "" /\ P s) ->
  match orElse a b with
  | Some s => s <> "" /\ P s /\ truthy (orElse a b) = true
  | None => a = None /\ b = None
  end.
Proof.
  intros Ha Hb. unfold orElse. destruct a as [s|]; simpl.
  - destruct (Ha s eq_refl) as [H1 H2].
    rewrite (bool_decide_eq_false_2 _ H1). simpl.
    rewrite (bool_decide_eq_false_2 _ H1). auto.
  - destruct b as [s|]; [|auto]. destruct (Hb s eq_refl) as [H1 H2].
    simpl. rewrite (bool_decide_eq_false_2 _ H1). auto.
Qed.

Section Normaliser.

Variable Number_ : string -> option Q.
Variable Date_parse : string -> option Z.
Variable JSON_parse : string -> option Json.
Variable sha1_hex : string -> string.

Lemma dataText_cases (rawData : option string) :
  forall s, dataText (parseTranscriptionData JSON_parse rawData) = Some s ->
    s <> "" /\ trim s = s.
Proof.
  intros s. unfold parseTranscriptionData.
  destruct (truthy rawData); [|discriminate].
  destruct (JSON_parse _) as [parsed|]; [|discriminate]. simpl.
  match goal with
  | |- orElse ?a ?b = _ -> _ =>
      assert (H : match orElse a b with
                  | Some s => s <> "" /\ trim s = s /\ truthy (orElse a b) = true
                  | None => a = None /\ b = None
                  end)
  end.
  { apply orElse_cases; intros s' Hs;
      match type of Hs with
      | readStringFromRecord ?record ?keys = _ =>
          pose proof (readStringFromRecord_cases record keys) as Hc
      end; rewrite Hs in Hc; exact Hc. }
  intros E. rewrite E in H. tauto.
Qed.

(** X13.  The normalised event carries a transcript exactly when the body
    has a call id and some transcript text (a text field of the body or the
    text of [TranscriptionData]); the text it carries is never blank and
    always trimmed; call id, account, status and slug never depend on the
    clock. *)
Theorem parseTwilioWebhookEvent_transcript
    (bodyParams : TwilioWebhookParams) (slugFromQuery : option string) (now : Z) :
  let event :=
    parseTwilioWebhookEvent Number_ Date_parse JSON_parse sha1_hex
      bodyParams slugFromQuery now in
  let bodyText :=
    readString bodyParams
      ["TranscriptionText"; "Transcript"; "SpeechResult"; "UnstableSpeechResult"] in
  let dataText' :=
    dataText (parseTranscriptionData JSON_parse (readString bodyParams ["TranscriptionData"])) in
  callSid event = readString bodyParams ["CallSid"] /\
  accountSid event = readString bodyParams ["AccountSid"] /\
  status event = readString bodyParams ["CallStatus"] /\
  slug event = match slugFromQuery with
               | Some s => Some s
               | None => readString bodyParams ["slug"; "Slug"]
               end /\
  (transcript event = None <->
   readString bodyParams ["CallSid"] = None \/ (bodyText = None /\ dataText' = None)) /\
  (forall chunk, transcript event = Some chunk ->
     text chunk <> "" /\ trim (text chunk) = text chunk /\
     (bodyText = Some (text chunk) \/ (bodyText = None /\ dataText' = Some (text chunk)))).
Proof.
  intros event bodyText dataText'.
  unfold event, parseTwilioWebhookEvent. fold bodyText.
  change (dataText (parseTranscriptionData JSON_parse
                      (readString bodyParams ["TranscriptionData"]))) with dataText'.
  pose proof (readString_truthy bodyParams ["CallSid"]) as Hc.
  pose proof (orElse_cases (fun s => trim s = s) bodyText dataText') as Ht.
  assert (Hb : forall s, bodyText = Some s -> s <> "" /\ trim s = s).
  { intros s Hs. pose proof (readString_cases bodyParams
      ["TranscriptionText"; "Transcript"; "SpeechResult"; "UnstableSpeechResult"]) as H.
    fold bodyText in H. rewrite Hs in H. tauto. }
  specialize (Ht Hb (dataText_cases _)).
  assert (Ho : orElse bodyText dataText' = match bodyText with Some s => Some s | None => dataText' end).
  { unfold orElse. destruct bodyText as [s|] eqn:E; [|reflexivity].
    destruct (Hb s eq_refl) as [H _]. simpl. rewrite (bool_decide_eq_false_2 _ H).
    reflexivity. }
  destruct (truthy (readString bodyParams ["CallSid"])) eqn:Ec.
  - assert (readString bodyParams ["CallSid"] <> None) as Hsid by (apply Hc; reflexivity).
    destruct (orElse bodyText dataText') as [s|] eqn:Eo.
    + destruct Ht as (H1 & H2 & ->). simpl. repeat split; try reflexivity.
      * discriminate.
      * intros [H|[H3 H4]]; [contradiction|]. rewrite H3, H4 in Ho. discriminate.
      * injection H as <-. simpl. exact H1.
      * injection H as <-. simpl. exact H2.
      * injection H as <-. simpl. destruct bodyText; [left | right]; auto.
    + destruct Ht as [H1 H2]. simpl. repeat split; try reflexivity; try discriminate.
      intros _. right. auto.
  - assert (Hnone : readString bodyParams ["CallSid"] = None).
    { destruct (readString bodyParams ["CallSid"]) as [s|] eqn:E; [|reflexivity].
      assert (Some s <> None) as H%Hc by discriminate. congruence. }
    simpl. repeat split; try reflexivity; try discriminate.
    intros _. left. exact Hnone.
Qed.

Lemma round_integer (n : Z) : round (inject_Z n) = n.
Proof.
  unfold round, Qfloor, Qplus, inject_Z. simpl.
  symmetry. apply (Z.div_unique_pos _ _ _ 1); lia.
Qed.

Lemma round_integer_scaled (n : Z) : round (inject_Z n * 1000) = (n * 1000)%Z.
Proof.
  unfold round, Qfloor, Qplus, Qmult, inject_Z. simpl.
  symmetry. apply (Z.div_unique_pos _ _ _ 1); lia.
Qed.

(** X14.  [parseTimestamp] keeps an integral value above 1e12 as
    milliseconds, scales an integral value above 1e9 to milliseconds, and
    reads the clock only when the value is missing or neither such a number
    nor a date. *)
Theorem parseTimestamp_units (value : string) (n now : Z) :
  value <> "" -> Number_ value = Some (inject_Z n) ->
  ((1000000000000 < n)%Z -> parseTimestamp Number_ Date_parse (Some value) now = n) /\
  ((1000000000 < n <= 1000000000000)%Z ->
   parseTimestamp Number_ Date_parse (Some value) now = (n * 1000)%Z) /\
  ((n <= 1000000000)%Z ->
   parseTimestamp Number_ Date_parse (Some value) now = default now (Date_parse value)).
Proof.
  intros Hv Hn. unfold parseTimestamp.
  rewrite (proj2 (truthy_Some value) Hv). simpl. rewrite Hn.
  repeat split; intros Hr.
  - destruct (Qlt_le_dec _ _) as [H|H]; [apply round_integer|].
    unfold Qle, inject_Z in H. simpl in H. lia.
  - destruct (Qlt_le_dec 1000000000000 _) as [H|H].
    { unfold Qlt, inject_Z in H. simpl in H. lia. }
    destruct (Qlt_le_dec _ _) as [H'|H']; [apply round_integer_scaled|].
    unfold Qle, inject_Z in H'. simpl in H'. lia.
  - destruct (Qlt_le_dec 1000000000000 _) as [H|H].
    { unfold Qlt, inject_Z in H. simpl in H. lia. }
    destruct (Qlt_le_dec _ _) as [H'|H'].
    { unfold Qlt, inject_Z in H'. simpl in H'. lia. }
    destruct (Date_parse value); reflexivity.
Qed.

End Normaliser.

(** Twilio sends seconds: 1700000000 becomes 1700000000000. *)
Lemma parseTimestamp_units_sample :
  ("1700000000" <> "" /\ (1000000000 < 1700000000 <= 1000000000000)%Z) /\
  parseTimestamp (fun _ => Some (inject_Z 1700000000)) (fun _ => None)
    (Some "1700000000") 42 = 1700000000000%Z.
Proof.
  assert (H : "1700000000" <> "" /\ (1000000000 < 1700000000 <= 1000000000000)%Z)
    by (split; [discriminate | lia]).
  split; [exact H|].
  apply (parseTimestamp_units (fun _ => Some (inject_Z 1700000000)) (fun _ => None)
           "1700000000" 1700000000 42); [apply H | reflexivity | apply H].
Defined.

(** X15.  [readBoolean] and [parseSpeaker] ignore letter case. *)
Theorem hints_ignore_case (s : string) :
  readBoolean (Some (toLowerCase s)) = readBoolean (Some s) /\
  parseSpeaker (Some (toLowerCase s)) = parseSpeaker (Some s).
Proof.
  assert (T : truthy (Some (toLowerCase s)) = truthy (Some s)).
  { simpl. f_equal. apply bool_decide_ext, toLowerCase_string_empty. }
  unfold readBoolean, parseSpeaker. rewrite T. simpl.
  rewrite toLowerCase_string_idempotent. split; reflexivity.
Qed.

(** X16.  The signed text does not mark where the URL, a key or a value
    ends: moving characters between a key and its value, or between the URL
    and the first key, leaves the signature unchanged. *)
Theorem signature_ignores_boundaries
    (hmac_sha1_base64 : string -> string -> string) (authToken url k a b : string) :
  computeTwilioSignature hmac_sha1_base64 authToken url {[ k +:+ a := b ]}
  = computeTwilioSignature hmac_sha1_base64 authToken url {[ k := a +:+ b ]} /\
  computeTwilioSignature hmac_sha1_base64 authToken (url +:+ k) {[ a := b ]}
  = computeTwilioSignature hmac_sha1_base64 authToken url {[ k := a +:+ b ]}.
Proof.
  assert (P : forall u key value,
             signaturePayload u {[ key := value ]} = u +:+ key +:+ value).
  { intros u key value. unfold signaturePayload, sortedKeys.
    rewrite map_to_list_singleton. simpl. rewrite lookup_singleton_eq. reflexivity. }
  unfold computeTwilioSignature. rewrite !P, !append_assoc. split; reflexivity.
Qed.

(** X17.  Candidates only add ways to verify: a list of candidates is
    accepted exactly when one of its parts is, and no candidate at all
    accepts nothing. *)
Theorem isValidTwilioSignature_candidates
    (hmac_sha1_base64 : string -> string -> string) (authToken signature : string)
    (candidates candidates' : list string) (bodyParams : TwilioWebhookParams) :
  isValidTwilioSignature hmac_sha1_base64 authToken signature [] bodyParams = Some false /\
  exists verdict verdict',
    isValidTwilioSignature hmac_sha1_base64 authToken signature candidates bodyParams
    = Some verdict /\
    isValidTwilioSignature hmac_sha1_base64 authToken signature candidates' bodyParams
    = Some verdict' /\
    isValidTwilioSignature hmac_sha1_base64 authToken signature
      (candidates ++ candidates') bodyParams
    = Some (verdict || verdict').
Proof.
  split; [reflexivity|]. rewrite !isValidTwilioSignature_spec, existsb_app. eauto.
Qed.

(** X18.  [safeEqual] never throws: its length guard keeps
    [timingSafeEqual] from being called on buffers of different lengths.  It
    answers [true] exactly when the two strings have the same encoding, so
    always for equal strings and never for encodings of different lengths. *)
Theorem safeEqual_never_throws (a b : string) :
  exists verdict,
    safeEqual a b = Some verdict /\
    (verdict = true <-> Buffer_from a = Buffer_from b) /\
    (a = b -> verdict = true) /\
    (length (Buffer_from a) <> length (Buffer_from b) -> verdict = false).
Proof.
  unfold safeEqual, timingSafeEqual.
  destruct (decide (length (Buffer_from a) = length (Buffer_from b))) as [Hl|Hl].
  - rewrite (bool_decide_eq_true_2 _ Hl). cbn [negb].
    exists (bool_decide (Buffer_from a = Buffer_from b)).
    split; [reflexivity|]. split; [apply bool_decide_eq_true|]. split.
    + intros ->. apply bool_decide_eq_true. reflexivity.
    + intros Hne. destruct (Hne Hl).
  - rewrite (bool_decide_eq_false_2 _ Hl). cbn [negb].
    exists false. split; [reflexivity|]. split; [|split; [|reflexivity]].
    + split; [discriminate|]. intros Heq. rewrite Heq in Hl. destruct (Hl eq_refl).
    + intros ->. destruct (Hl eq_refl).
Qed.

End WebhookMore.

(** ** More on the advice scheduler *)

Section SchedulerMore.
Import Webhook Route RouteSpec RouteCounts.
Context {Advice Chunk : Type}.
Variable env : Env Advice Chunk.
Variable callSid : string.

Implicit Types w : World Advice Chunk.

Lemma generations_app (a b : list (nat * Call Advice Chunk)) :
  generations (a ++ b) = generations a + generations b.
Proof.
  induction a as [|[t call] a IH]; [reflexivity|].
  destruct call; simpl; rewrite IH; reflexivity.
Qed.

Lemma triggersFrom_add from span span' :
  triggersFrom env from (span + span')
  = triggersFrom env from span + triggersFrom env (from + span) span'.
Proof.
  unfold triggersFrom. rewrite seq_app, List.filter_app, length_app. reflexivity.
Qed.

Lemma triggersFrom_within from to :
  TriggerWithin env from to -> 1 <= triggersFrom env from (to - from).
Proof.
  intros (t & Ht & Htr). unfold triggersFrom.
  assert (In t (List.filter (triggerAt env) (seq from (to - from)))) as Hin.
  { apply filter_In. split; [apply in_seq; lia | exact Htr]. }
  destruct (List.filter _ _); [destruct Hin | simpl; lia].
Qed.

Lemma Elsewhere_refl w : Elsewhere callSid w w.
Proof. intros other _. reflexivity. Qed.

Lemma Elsewhere_trans w1 w2 w3 :
  Elsewhere callSid w1 w2 -> Elsewhere callSid w2 w3 -> Elsewhere callSid w1 w3.
Proof. intros H H' other Hne. rewrite (H' other Hne). apply H, Hne. Qed.

Lemma Elsewhere_mutate f w : Elsewhere callSid w (mutate callSid f w).
Proof. intros other Hne. unfold mutate. simpl. apply lookup_insert_ne. congruence. Qed.

Lemma Walk_refl w : Walk env callSid 0 w w.
Proof.
  split; [apply Elsewhere_refl|]. exists []. split; [apply Drifts_refl | reflexivity].
Qed.

Lemma Walk_trans g g' w1 w2 w3 :
  Walk env callSid g w1 w2 -> Walk env callSid g' w2 w3 ->
  Walk env callSid (g + g') w1 w3.
Proof.
  intros (E & issued & D & G) (E' & issued' & D' & G').
  split; [eapply Elsewhere_trans; eassumption|].
  exists (issued ++ issued'). split; [eapply Drifts_trans; eassumption|].
  rewrite generations_app. lia.
Qed.

Lemma Walk_weaken g g' w w' : g <= g' -> Walk env callSid g w w' -> Walk env callSid g' w w'.
Proof. intros Hg (E & issued & D & G). split; [exact E|]. exists issued. split; [exact D | lia]. Qed.

Lemma Walk_ticks g w w' : Walk env callSid g w w' -> ticks w <= ticks w'.
Proof. intros (_ & issued & (Ht & _) & _). exact Ht. Qed.

Lemma Walk_mutate f w :
  (forall s, pending (f s) = true -> pending s = true) ->
  Walk env callSid 0 w (mutate callSid f w).
Proof.
  intros Hf. split; [apply Elsewhere_mutate|]. exists []. split; [|reflexivity].
  split; [reflexivity|]. split.
  - rewrite current_mutate. intros H. left. apply Hf, H.
  - symmetry. apply app_nil_r.
Qed.

Lemma Walk_tick w w' :
  adviceRunState w' = adviceRunState w -> calls w' = calls w -> ticks w <= ticks w' ->
  Walk env callSid 0 w w'.
Proof.
  intros Hs Hc Ht. split; [intros other _; rewrite Hs; reflexivity|].
  exists []. split; [|reflexivity]. split; [exact Ht|]. split.
  - unfold current. rewrite Hs. tauto.
  - rewrite Hc. symmetry. apply app_nil_r.
Qed.

Lemma await_walk {A} (call : Call Advice Chunk) (settle : nat -> Settled A) w r w' :
  await env call settle (triggerWhileRunning callSid) w = (r, w') ->
  Walk env callSid (generations [(ticks w, call)]) w w' /\ ticks w' = S (ticks w) /\
  r = match settle (ticks w) with
      | Fulfilled a => Returned a
      | Rejected e => Threw e
      end.
Proof.
  intros E. pose proof E as (D & T & R)%(await_drifts env callSid).
  split; [|split; assumption]. split; [|exists [(ticks w, call)]; split; [exact D | lia]].
  unfold await, triggerWhileRunning in E. injection E as _ <-.
  destruct (triggerAt env (ticks w)); intros other Hne; simpl;
    [apply lookup_insert_ne; congruence | reflexivity].
Qed.

Lemma adviceIsFresh_walk force summary w r w' :
  adviceIsFresh env callSid force summary w = (r, w') ->
  Walk env callSid 0 w w' /\ exists fresh, r = Returned fresh.
Proof.
  unfold adviceIsFresh, bind, dateNow, getCurrent, ret.
  destruct force; [intros [= <- <-]; split; [apply Walk_refl | eauto]|].
  destruct (lastAdviceAt summary) as [lastAdvice|];
    [|intros [= <- <-]; split; [apply Walk_refl | eauto]].
  destruct (lastAdvice =? 0)%Z; [intros [= <- <-]; split; [apply Walk_refl | eauto]|].
  destruct (_ <? _)%Z; intros [= <- <-]; (split; [|eauto]);
    apply Walk_tick; simpl; try reflexivity; lia.
Qed.

Lemma generateAndStore_walk transcript w r w' :
  generateAndStore env callSid transcript w = (r, w') ->
  Walk env callSid 1 w w' /\ r = Returned tt.
Proof.
  unfold generateAndStore, tryCatch, bind, ret.
  destruct (await env (GenerateLiveAdvice transcript) _ _ w) as [r1 w1] eqn:E1.
  apply await_walk in E1 as (W1 & T1 & ->).
  destruct (adviceAt env (ticks w)) as [advice|e].
  - destruct (await env (SetLiveCallAdvice callSid (Generated advice) None) _ _ w1)
      as [r2 w2] eqn:E2.
    apply await_walk in E2 as (W2 & T2 & ->).
    pose proof (Walk_trans _ _ _ _ _ W1 W2) as W12.
    destruct (writeAt env (ticks w1)) as [[]|e2].
    + intros [= <- <-]. split; [exact W12 | reflexivity].
    + destruct (await env (SetLiveCallAdvice callSid DefaultAdvice _) _ _ w2)
        as [r3 w3] eqn:E3.
      apply await_walk in E3 as (W3 & T3 & ->).
      pose proof (Walk_trans _ _ _ _ _ W12 W3) as W13.
      destruct (writeAt env (ticks w2)) as [[]|e3]; intros [= <- <-];
        (split; [exact W13 | reflexivity]).
  - destruct (await env (SetLiveCallAdvice callSid DefaultAdvice _) _ _ w1)
      as [r3 w3] eqn:E3.
    apply await_walk in E3 as (W3 & T3 & ->).
    pose proof (Walk_trans _ _ _ _ _ W1 W3) as W13.
    destruct (writeAt env (ticks w1)) as [[]|e3]; intros [= <- <-];
      (split; [exact W13 | reflexivity]).
Qed.

(** An iteration generates advice at most once, and asks for another
    iteration only if a trigger arrived while it ran. *)
Lemma adviceIteration_walk force w r w' :
  adviceIteration env callSid force w = (r, w') ->
  Walk env callSid 1 w w' /\
  (r = Returned true -> TriggerWithin env (ticks w) (ticks w')).
Proof.
  unfold adviceIteration, bind, modify, ret, getCurrent.
  set (w0 := mutate callSid (setPending false) w).
  assert (W0 : Walk env callSid 0 w w0) by (apply Walk_mutate; discriminate).
  assert (P0 : pending (current w0 callSid) = false)
    by (unfold w0; rewrite current_mutate; reflexivity).
  assert (T0 : ticks w0 = ticks w) by reflexivity.
  assert (Finish : forall g wn b,
            Walk env callSid g w0 wn -> g <= 1 ->
            (b = true -> pending (current wn callSid) = true) ->
            Walk env callSid 1 w wn /\
            (Returned b = Returned true -> TriggerWithin env (ticks w) (ticks wn))).
  { intros g wn b Wn Hg Hb. split.
    - apply (Walk_weaken g); [exact Hg|]. apply (Walk_trans 0 g _ _ _ W0 Wn).
    - intros [= ->]. destruct Wn as (_ & issued & (_ & Hp & _) & _).
      destruct (Hp (Hb eq_refl)) as [F|Ht]; [congruence|]. rewrite <- T0. exact Ht. }
  destruct (await env (GetLiveCallSummary callSid) _ _ w0) as [r1 w1] eqn:E1.
  apply await_walk in E1 as (W1 & T1 & ->). simpl in W1.
  destruct (summaryAt env (ticks w0)) as [[summary|]|e].
  - destruct (adviceIsFresh env callSid force summary w1) as [r2 w2] eqn:E2.
    apply adviceIsFresh_walk in E2 as (W2 & fresh & ->).
    pose proof (Walk_trans _ _ _ _ _ W1 W2) as W02.
    destruct fresh.
    { intros [= <- <-]. apply (Finish _ _ _ W02); [lia | discriminate]. }
    destruct (await env (GetTranscriptChunks callSid ADVICE_TRANSCRIPT_LIMIT) _ _ w2)
      as [r3 w3] eqn:E3.
    apply await_walk in E3 as (W3 & T3 & ->). simpl in W3.
    pose proof (Walk_trans _ _ _ _ _ W02 W3) as W03.
    destruct (chunksAt env (ticks w2)) as [transcript|e].
    + destruct (length transcript =? 0).
      { intros [= <- <-]. apply (Finish _ _ _ W03); [lia | discriminate]. }
      unfold tryCatch at 1.
      destruct (await env (SetLiveCallAnalyzing callSid true) _ _ w3) as [r4 w4] eqn:E4.
      apply await_walk in E4 as (W4 & T4 & ->). simpl in W4.
      pose proof (Walk_trans _ _ _ _ _ W03 W4) as W04.
      assert (Rest : forall w4',
                w4' = w4 ->
                (let (r5, w5) := generateAndStore env callSid transcript w4' in
                 match r5 with
                 | Returned _ =>
                     let (r6, w6) := dateNow env w5 in
                     match r6 with
                     | Returned now =>
                         (Returned
                            (pending (current (mutate callSid (setLastRunAt now) w6) callSid)),
                          mutate callSid (setLastRunAt now) w6)
                     | Threw e => (Threw e, w6)
                     | Unfinished => (Unfinished, w6)
                     end
                 | Threw e => (Threw e, w5)
                 | Unfinished => (Unfinished, w5)
                 end) = (r, w') ->
                Walk env callSid 1 w w' /\
                (r = Returned true -> TriggerWithin env (ticks w) (ticks w'))).
      { intros w4' ->.
        destruct (generateAndStore env callSid transcript w4) as [r5 w5] eqn:E5.
        apply generateAndStore_walk in E5 as (W5 & ->).
        pose proof (Walk_trans _ _ _ _ _ W04 W5) as W05.
        unfold dateNow. intros [= <- <-]. eapply Finish.
        - eapply Walk_trans; [exact W05|]. eapply Walk_trans.
          + apply (Walk_tick w5 {| adviceRunState := adviceRunState w5;
                                    ticks := S (ticks w5); calls := calls w5 |});
              simpl; [reflexivity | reflexivity | lia].
          + apply Walk_mutate. tauto.
        - simpl. lia.
        - tauto. }
      destruct (writeAt env (ticks w3)) as [[]|e4]; unfold ret; apply Rest; reflexivity.
    + intros [= <- <-]. split; [|discriminate].
      apply (Walk_weaken 0); [lia|]. apply (Walk_trans 0 0 _ _ _ W0 W03).
  - intros [= <- <-]. apply (Finish _ _ _ W1); [lia | discriminate].
  - intros [= <- <-]. split; [|discriminate].
    apply (Walk_weaken 0); [lia|]. apply (Walk_trans 0 0 _ _ _ W0 W1).
Qed.

Lemma adviceLoop_walk fuel force w r w' :
  adviceLoop env fuel callSid force w = (r, w') ->
  Elsewhere callSid w w' /\ ticks w <= ticks w' /\
  exists issued,
    calls w' = calls w ++ issued /\
    generations issued <= 1 + triggersFrom env (ticks w) (ticks w' - ticks w).
Proof.
  revert force w r w'. induction fuel as [|fuel IH]; intros force w r w'; simpl.
  - intros [= <- <-]. split; [apply Elsewhere_refl|]. split; [lia|].
    exists []. split; [symmetry; apply app_nil_r | simpl; lia].
  - unfold bind, ret.
    destruct (adviceIteration env callSid force w) as [r1 w1] eqn:E1.
    apply adviceIteration_walk in E1 as (W1 & G1).
    pose proof (Walk_ticks _ _ _ W1) as T1.
    destruct W1 as (El & issued & (_ & _ & Hc) & Hg).
    assert (Stop : (r, w') = (r, w1) ->
              Elsewhere callSid w w1 /\ ticks w <= ticks w1 /\
              exists issued,
                calls w1 = calls w ++ issued /\
                generations issued <= 1 + triggersFrom env (ticks w) (ticks w1 - ticks w)).
    { intros _. split; [exact El|]. split; [exact T1|]. exists issued. split; [exact Hc | lia]. }
    destruct r1 as [[]|e|]; [| |intros [= <- <-]; apply Stop; reflexivity..].
    + intros (El2 & T2 & issued2 & Hc2 & Hg2)%IH.
      split; [eapply Elsewhere_trans; eassumption|]. split; [lia|].
      exists (issued ++ issued2). split; [rewrite Hc2, Hc, app_assoc; reflexivity|].
      rewrite generations_app.
      pose proof (triggersFrom_within _ _ (G1 eq_refl)) as Htr.
      replace (ticks w' - ticks w) with ((ticks w1 - ticks w) + (ticks w' - ticks w1)) by lia.
      rewrite triggersFrom_add.
      replace (ticks w + (ticks w1 - ticks w)) with (ticks w1) by lia. lia.
    + intros [= <- <-]. apply Stop. reflexivity.
Qed.

Lemma runAdviceForCall_walk fuel force w r w' :
  runAdviceForCall env fuel callSid force w = (r, w') ->
  Elsewhere callSid w w' /\ ticks w <= ticks w' /\
  (running (current w callSid) = false -> r <> Unfinished ->
   running (current w' callSid) = false) /\
  exists issued,
    calls w' = calls w ++ issued /\
    generations issued <= 1 + triggersFrom env (ticks w) (ticks w' - ticks w).
Proof.
  unfold runAdviceForCall, bind, modify, getCurrent, ret, tryFinally, dateNow.
  rewrite current_mutate.
  assert (Idle : exists issued : list (nat * Call Advice Chunk),
             calls w = calls w ++ issued /\
             forall n, generations issued <= 1 + n).
  { exists []. split; [symmetry; apply app_nil_r | simpl; lia]. }
  destruct Idle as (nothing & Hn & Gn).
  destruct (running (current w callSid)) eqn:Run.
  { intros [= <- <-]. split.
    - intros other Hne. simpl. rewrite !lookup_insert_ne by congruence. reflexivity.
    - split; [reflexivity|]. split; [discriminate|]. exists nothing. split; [exact Hn | apply Gn]. }
  destruct (negb force && _).
  { intros [= <- <-]. split.
    - intros other Hne. simpl. rewrite !lookup_insert_ne by congruence. reflexivity.
    - split; [simpl; lia|]. split.
      + intros _ _. unfold current. simpl. rewrite lookup_insert_eq. exact Run.
      + exists nothing. split; [exact Hn | apply Gn]. }
  match goal with
  | |- context [adviceLoop env fuel callSid force ?w2] =>
      destruct (adviceLoop env fuel callSid force w2) as [r3 w3] eqn:E3;
      assert (E2 : Elsewhere callSid w w2)
        by (intros other Hne; simpl; rewrite !lookup_insert_ne by congruence;
            reflexivity)
  end.
  apply adviceLoop_walk in E3 as (El & T3 & issued & C3 & G3).
  simpl in T3, C3, G3.
  assert (Hb : generations issued <= 1 + triggersFrom env (ticks w) (ticks w3 - ticks w)).
  { replace (ticks w3 - ticks w) with (1 + (ticks w3 - S (ticks w))) by lia.
    rewrite triggersFrom_add. replace (ticks w + 1) with (S (ticks w)) by lia. lia. }
  pose proof (Elsewhere_trans _ _ _ E2 El) as E13.
  destruct r3; intros [= <- <-].
  - split; [eapply Elsewhere_trans; [exact E13 | apply Elsewhere_mutate]|].
    split; [simpl; lia|]. split; [intros _ _; rewrite current_mutate; reflexivity|].
    exists issued. split; [exact C3 | exact Hb].
  - split; [eapply Elsewhere_trans; [exact E13 | apply Elsewhere_mutate]|].
    split; [simpl; lia|]. split; [intros _ _; rewrite current_mutate; reflexivity|].
    exists issued. split; [exact C3 | exact Hb].
  - split; [exact E13|]. split; [lia|]. split; [congruence|].
    exists issued. split; [exact C3 | exact Hb].
Qed.

End SchedulerMore.

Section SchedulerExtras.
Import Webhook Route RouteSpec RouteCounts.
Context {Advice Chunk : Type}.

(** X19.  An activation that finds no run in flight leaves none behind:
    when it returns or throws, [running] is false again. *)
Theorem runAdviceForCall_releases
    (env : Env Advice Chunk) (callSid : string) (fuel : nat) (force : bool)
    (w : World Advice Chunk) :
  running (current w callSid) = false ->
  fst (runAdviceForCall env fuel callSid force w) <> Unfinished ->
  running (current (snd (runAdviceForCall env fuel callSid force w)) callSid) = false.
Proof.
  destruct (runAdviceForCall env fuel callSid force w) as [r w'] eqn:E.
  apply runAdviceForCall_walk in E as (_ & _ & H & _). exact H.
Qed.

(** X20.  An activation for one call never changes the run state of another
    call. *)
Theorem runAdviceForCall_other_calls
    (env : Env Advice Chunk) (callSid other : string) (fuel : nat) (force : bool)
    (w : World Advice Chunk) :
  other <> callSid ->
  adviceRunState (snd (runAdviceForCall env fuel callSid force w)) !! other
  = adviceRunState w !! other.
Proof.
  destruct (runAdviceForCall env fuel callSid force w) as [r w'] eqn:E.
  apply runAdviceForCall_walk in E as (H & _). intros Hne. apply H, Hne.
Qed.

(** X21.  Coalescing: an activation generates advice at most once more than
    the number of ticks at which a trigger arrived while it ran; without any
    trigger, at most once. *)
Theorem runAdviceForCall_coalesces
    (env : Env Advice Chunk) (callSid : string) (fuel : nat) (force : bool)
    (w : World Advice Chunk) :
  let w' := snd (runAdviceForCall env fuel callSid force w) in
  exists issued,
    calls w' = calls w ++ issued /\
    generations issued <= 1 + triggersFrom env (ticks w) (ticks w' - ticks w) /\
    ((forall t, triggerAt env t = false) -> generations issued <= 1).
Proof.
  intros w'. unfold w'.
  destruct (runAdviceForCall env fuel callSid force w) as [r w1] eqn:E.
  apply runAdviceForCall_walk in E as (_ & _ & _ & issued & Hc & Hg).
  exists issued. split; [exact Hc|]. split; [exact Hg|].
  intros Hq. simpl in *.
  assert (forall from span, triggersFrom env from span = 0) as Hz.
  { intros from span. unfold triggersFrom.
    assert (List.filter (triggerAt env) (seq from span) = []) as ->; [|reflexivity].
    generalize (seq from span). intros l.
    induction l as [|t l IH]; simpl; [reflexivity|]. rewrite Hq. exact IH. }
  rewrite Hz in Hg. lia.
Qed.

End SchedulerExtras.

Lemma runAdviceForCall_releases_sample :
  let run := Route.runAdviceForCall RouteSpec.failingGeneratorEnv 1 "CA1" true
               (RouteSpec.worldWith ∅) in
  (Route.running (Route.current (RouteSpec.worldWith ∅) "CA1") = false /\
   fst run <> Route.Unfinished) /\
  Route.running (Route.current (snd run) "CA1") = false.
Proof.
  intros run.
  assert (H : Route.running (Route.current (RouteSpec.worldWith ∅) "CA1") = false /\
              fst run <> Route.Unfinished)
    by (split; [reflexivity | vm_compute; discriminate]).
  split; [exact H|].
  apply (runAdviceForCall_releases RouteSpec.failingGeneratorEnv "CA1" 1 true
           (RouteSpec.worldWith ∅)); apply H.
Defined.

Lemma runAdviceForCall_other_calls_sample :
  "CA2" <> "CA1" /\
  Route.adviceRunState
    (snd (Route.runAdviceForCall RouteSpec.failingGeneratorEnv 2 "CA1" true
            RouteCounts.twoCalls)) !! "CA2"
  = Some RouteSpec.runningState.
Proof.
  assert (H : "CA2" <> "CA1") by discriminate.
  split; [exact H|].
  rewrite (runAdviceForCall_other_calls RouteSpec.failingGeneratorEnv "CA1" "CA2" 2 true
             RouteCounts.twoCalls H).
  reflexivity.
Defined.

(** ** More on the webhook handler and its configuration *)

Section HandlerExtras.
Import Webhook Route RouteSpec RouteCounts Config.
Context {Advice Chunk : Type}.
Variable normalizeSessionStatus : string -> SessionStatus.
Variable isTerminalStatus : SessionStatus -> bool.
Variable env : Env Advice Chunk.
Variable Number_ : string -> option Q.
Variable Date_parse : string -> option Z.
Variable JSON_parse : string -> option Json.
Variable sha1_hex : string -> string.
Variable hmac_sha1_base64 : string -> string -> string.

Implicit Types w : World Advice Chunk.

(** X22.  When validation is not skipped, a request with no configured
    account, no signature, or a signature that fits no candidate URL is
    refused (500 or 401) and changes nothing: no collaborator is called and
    no scheduler state changes. *)
Theorem POST_refuses_untouched (twilioConfig : option TwilioConfig) (fuel : nat)
    (request : Request) w :
  twilioConfig = None \/
  truthy (signatureHeader request) = false \/
  (forall config candidate,
     twilioConfig = Some config -> candidate ∈ urlCandidates request ->
     computeTwilioSignature hmac_sha1_base64 (authToken config) candidate
       (bodyParams request)
     <> default "" (signatureHeader request)) ->
  exists response,
    POST normalizeSessionStatus isTerminalStatus env
      Number_ Date_parse JSON_parse sha1_hex hmac_sha1_base64
      twilioConfig false fuel request w
    = (Returned response, w) /\
    ok response = false /\ (statusCode response = 401 \/ statusCode response = 500).
Proof.
  intros H. unfold POST, bind, ret, validate.
  destruct twilioConfig as [config|]; [|simpl; eexists; split; [reflexivity | auto]].
  simpl. destruct (truthy (signatureHeader request)) eqn:Sig;
    [|eexists; split; [reflexivity | auto]].
  destruct H as [H|[H|H]]; [discriminate..|].
  rewrite isValidTwilioSignature_spec.
  assert (existsb
            (fun candidate =>
               bool_decide
                 (computeTwilioSignature hmac_sha1_base64 (authToken config) candidate
                    (bodyParams request) = default "" (signatureHeader request)))
            (urlCandidates request) = false) as ->.
  { destruct (existsb _ _) eqn:Ex; [|reflexivity].
    apply existsb_exists in Ex as (candidate & Hin & Heq).
    apply bool_decide_eq_true in Heq. apply list_elem_of_In in Hin.
    destruct (H config candidate eq_refl Hin Heq). }
  eexists. split; [reflexivity | auto].
Qed.

(** X23.  An event without a call id that passes validation (validation
    skipped, or a signature that fits one of the candidate URLs) is
    acknowledged with 200: no collaborator is called and no scheduler state
    changes. *)
Theorem POST_without_call (twilioConfig : option TwilioConfig) (skipValidation : bool)
    (fuel : nat) (request : Request) w :
  readString (bodyParams request) ["CallSid"] = None ->
  skipValidation = true \/
  (exists config candidate,
     twilioConfig = Some config /\ truthy (signatureHeader request) = true /\
     candidate ∈ urlCandidates request /\
     computeTwilioSignature hmac_sha1_base64 (authToken config) candidate
       (bodyParams request)
     = default "" (signatureHeader request)) ->
  let outcome :=
    POST normalizeSessionStatus isTerminalStatus env
      Number_ Date_parse JSON_parse sha1_hex hmac_sha1_base64
      twilioConfig skipValidation fuel request w in
  fst outcome = Returned (json 200 true None) /\
  calls (snd outcome) = calls w /\
  adviceRunState (snd outcome) = adviceRunState w.
Proof.
  intros Hsid Hpass.
  assert (forall now,
            callSid (parseTwilioWebhookEvent Number_ Date_parse JSON_parse sha1_hex
                       (bodyParams request) (slugFromQuery request) now)
            = None) as Hnone.
  { intros now. unfold parseTwilioWebhookEvent. rewrite Hsid. reflexivity. }
  assert (forall w0,
            handleEvent normalizeSessionStatus isTerminalStatus env
              Number_ Date_parse JSON_parse sha1_hex twilioConfig fuel request w0
            = (Returned (json 200 true None),
               {| adviceRunState := adviceRunState w0; ticks := S (ticks w0);
                  calls := calls w0 |})) as Hhandle.
  { intros w0. cbv beta iota zeta delta [bind ret handleEvent dateNow].
    rewrite Hnone. reflexivity. }
  destruct Hpass as [->|(config & candidate & -> & Sig & Hin & Heq)].
  - unfold POST. rewrite andb_false_r. unfold bind, ret. cbv beta iota.
    rewrite Hhandle. auto.
  - unfold POST. destruct skipValidation.
    + rewrite andb_false_r. unfold bind, ret. cbv beta iota. rewrite Hhandle. auto.
    + rewrite bool_decide_eq_false_2 by discriminate. cbn [andb].
      unfold bind, validate. rewrite Sig, isValidTwilioSignature_spec.
      assert (existsb
                (fun candidate =>
                   bool_decide
                     (computeTwilioSignature hmac_sha1_base64 (authToken config) candidate
                        (bodyParams request) = default "" (signatureHeader request)))
                (urlCandidates request) = true) as ->.
      { apply existsb_exists. exists candidate. split.
        - apply list_elem_of_In, Hin.
        - apply bool_decide_eq_true, Heq. }
      unfold ret. cbv beta iota. rewrite Hhandle. auto.
Qed.


End HandlerExtras.

Example blank_token_is_no_configuration :
  Config.getTwilioConfig Config.blankTokenEnv = None /\
  Config.shouldSkipTwilioWebhookValidation Config.blankTokenEnv = false.
Proof. split; vm_compute; reflexivity. Qed.

Lemma POST_refuses_untouched_sample :
  Webhook.truthy (Route.signatureHeader RouteCounts.unsignedRequest) = false /\
  Route.POST (fun _ => Route.live) (fun _ => false) RouteSpec.quietEnv
    (fun _ => None) (fun _ => None) (fun _ => None) (fun s => s) (fun _ s => s)
    (Some {| Route.configAccountSid := "AC1"; Route.authToken := "secret";
             Route.phoneNumber := "+14155552671" |})
    false 1 RouteCounts.unsignedRequest (RouteSpec.worldWith ∅)
  = (Route.Returned (Route.json 401 false (Some "Missing Twilio signature.")),
     RouteSpec.worldWith ∅).
Proof.
  assert (H : Webhook.truthy (Route.signatureHeader RouteCounts.unsignedRequest) = false)
    by reflexivity.
  split; [exact H|].
  destruct (POST_refuses_untouched (fun _ => Route.live) (fun _ => false) RouteSpec.quietEnv
              (fun _ => None) (fun _ => None) (fun _ => None) (fun s => s) (fun _ s => s)
              (Some {| Route.configAccountSid := "AC1"; Route.authToken := "secret";
                       Route.phoneNumber := "+14155552671" |})
              1 RouteCounts.unsignedRequest (RouteSpec.worldWith ∅)
              (or_intror (or_introl H))) as (response & E & _).
  rewrite E. f_equal. f_equal.
  assert (R : fst (Route.POST (fun _ => Route.live) (fun _ => false) RouteSpec.quietEnv
                     (fun _ => None) (fun _ => None) (fun _ => None) (fun s => s)
                     (fun _ s => s)
                     (Some {| Route.configAccountSid := "AC1"; Route.authToken := "secret";
                              Route.phoneNumber := "+14155552671" |})
                     false 1 RouteCounts.unsignedRequest (RouteSpec.worldWith ∅))
              = Route.Returned (Route.json 401 false (Some "Missing Twilio signature.")))
    by (vm_compute; reflexivity).
  rewrite E in R. injection R as R. exact R.
Defined.

Lemma POST_without_call_sample :
  let outcome :=
    Route.POST (fun _ => Route.live) (fun _ => false) RouteSpec.brokenStoreEnv
      (fun _ => None) (fun _ => None) (fun _ => None) (fun s => s) (fun _ s => s)
      None true 1 RouteCounts.strayRequest (RouteSpec.worldWith ∅) in
  Webhook.readString (Route.bodyParams RouteCounts.strayRequest) ["CallSid"] = None /\
  fst outcome = Route.Returned (Route.json 200 true None) /\
  Route.calls (snd outcome) = [] /\
  Route.adviceRunState (snd outcome) = ∅.
Proof.
  assert (H : Webhook.readString (Route.bodyParams RouteCounts.strayRequest) ["CallSid"]
              = None) by reflexivity.
  split; [exact H|].
  exact (POST_without_call (fun _ => Route.live) (fun _ => false) RouteSpec.brokenStoreEnv
           (fun _ => None) (fun _ => None) (fun _ => None) (fun s => s) (fun _ s => s)
           None true 1 RouteCounts.strayRequest (RouteSpec.worldWith ∅) H
           (or_introl eq_refl)).
Defined.
